(** * GBRT decision-tree core: split records, frontier ordering, random draws

    A shallow embedding of [src/tree/splitter.h] and [src/tree/treebuilder.h].

    - C++ [int] is a 32-bit two's-complement integer, modelled as [Z] with the
      wrap-around written out (signed overflow, which C++ leaves undefined,
      wraps as the machine does).
    - C++ [double] is IEEE-754 binary64, modelled by the primitive type
      [float] with its primitive operations.
    - [std::vector] is a [list] with stdpp's lookup [l !! i] and update
      [<[i:=x]> l]; objects that are passed around live in a store ([gmap]).
    - [std::srand]/[std::rand] act on one global generator; that generator is
      threaded through explicitly. *)

From Stdlib Require Import ZArith Floats.
From stdpp Require Import base option list gmap sorting.

Local Open Scope Z_scope.

(** ** Machine types *)

Definition double : Type := float.
Bind Scope float_scope with double.

Definition INT_MIN : Z := - 2 ^ 31.
Definition INT_MAX : Z := 2 ^ 31 - 1.

Definition in_int (z : Z) : bool := (INT_MIN <=? z) && (z <=? INT_MAX).

(** 32-bit signed wrap-around of a mathematical integer. *)
Definition wrap_int (z : Z) : Z := (z + 2 ^ 31) mod 2 ^ 32 - 2 ^ 31.

Definition int_add (a b : Z) : Z := wrap_int (a + b).
Definition int_sub (a b : Z) : Z := wrap_int (a - b).

(** Conversion [int -> unsigned], as at the call [std::srand(random_state)]. *)
Definition to_unsigned (z : Z) : Z := z mod 2 ^ 32.

(** Conversion [int -> double]; exact for every 32-bit integer. *)
Definition int2double (z : Z) : double :=
  if z <? 0 then (- of_uint63 (Uint63.of_Z (- z)))%float
  else of_uint63 (Uint63.of_Z z).

(** Conversion [double -> int]: the fractional part is discarded; the
    conversion has no defined result when the truncated value does not fit
    (also for infinities and NaN). *)
Definition double2int (d : double) : option Z :=
  match Prim2SF d with
  | S754_zero _ => Some 0
  | S754_finite s m e =>
      let v := if 0 <=? e then Z.pos m * 2 ^ e else Z.pos m / 2 ^ (- e) in
      let v := if s then - v else v in
      if in_int v then Some v else None
  | S754_infinity _ | S754_nan => None
  end.

Definition is_nan (d : double) : bool := negb (d =? d)%float.

(** The place of a non-NaN value in the order of [SFcompare]: sign class,
    then exponent, then mantissa. *)
Definition SFrank (x : spec_float) : option (Z * Z * Z) :=
  match x with
  | S754_nan => None
  | S754_infinity true => Some (-2, 0, 0)
  | S754_infinity false => Some (2, 0, 0)
  | S754_zero _ => Some (0, 0, 0)
  | S754_finite true m e => Some (-1, - e, - Z.pos m)
  | S754_finite false m e => Some (1, e, Z.pos m)
  end.

Definition Frank (x : double) : option (Z * Z * Z) := SFrank (Prim2SF x).

Definition rank_compare (a b : Z * Z * Z) : comparison :=
  let '(a1, a2, a3) := a in
  let '(b1, b2, b3) := b in
  match a1 ?= b1 with
  | Eq => match a2 ?= b2 with Eq => a3 ?= b3 | c => c end
  | c => c
  end.

Definition rank_lt (a b : Z * Z * Z) : Prop :=
  let '(a1, a2, a3) := a in
  let '(b1, b2, b3) := b in
  a1 < b1 ∨ (a1 = b1 ∧ (a2 < b2 ∨ (a2 = b2 ∧ a3 < b3))).

(** Checking a boolean property on the [n] integers from [z] upwards. *)
Fixpoint forall_from (n : nat) (z : Z) (f : Z → bool) : bool :=
  match n with
  | O => true
  | S n' => f z && forall_from n' (z + 1) f
  end.

(** ** splitter.h: [SplitRecord] *)

Record SplitRecord : Type := mkSplitRecord {
  feature : Z;
  threshold : double;
  pos : Z;
  improvement : double;
  impurity_left : double;
  impurity_right : double
}.

(** Assignment to one member. *)
Definition set_feature (v : Z) (r : SplitRecord) : SplitRecord :=
  mkSplitRecord v (threshold r) (pos r) (improvement r) (impurity_left r) (impurity_right r).
Definition set_threshold (v : double) (r : SplitRecord) : SplitRecord :=
  mkSplitRecord (feature r) v (pos r) (improvement r) (impurity_left r) (impurity_right r).
Definition set_pos (v : Z) (r : SplitRecord) : SplitRecord :=
  mkSplitRecord (feature r) (threshold r) v (improvement r) (impurity_left r) (impurity_right r).
Definition set_improvement (v : double) (r : SplitRecord) : SplitRecord :=
  mkSplitRecord (feature r) (threshold r) (pos r) v (impurity_left r) (impurity_right r).
Definition set_impurity_left (v : double) (r : SplitRecord) : SplitRecord :=
  mkSplitRecord (feature r) (threshold r) (pos r) (improvement r) v (impurity_right r).
Definition set_impurity_right (v : double) (r : SplitRecord) : SplitRecord :=
  mkSplitRecord (feature r) (threshold r) (pos r) (improvement r) (impurity_left r) v.

(** [SplitRecord::SplitRecord()]: every member is in the initialiser list. *)
Definition SplitRecord_ctor : SplitRecord :=
  {| feature := 0;
     pos := 0;
     threshold := 0%float;
     improvement := 0%float;
     impurity_left := 0%float;
     impurity_right := 0%float |}.

(** [SplitRecord::SplitRecord(const SplitRecord& r)]: no initialiser list.
    The object is constructed in storage whose previous content is
    arbitrary; that content is the argument [raw], and a member that is not
    given a value keeps it. The last two statements read [impurity_left = impurity_left;] and
    [impurity_right = impurity_right;], where both sides name the member of
    the object under construction. *)
Definition SplitRecord_copy (raw r : SplitRecord) : SplitRecord :=
  let this := raw in
  let this := set_feature (feature r) this in
  let this := set_pos (pos r) this in
  let this := set_threshold (threshold r) this in
  let this := set_improvement (improvement r) this in
  let this := set_impurity_left (impurity_left this) this in
  let this := set_impurity_right (impurity_right this) this in
  this.

(** Modelled from the spec: the body of [SplitRecord::init_split], which
    splitter.h only declares. The spec's data model gives the state it
    establishes: "Default/uninitialized state: pos = start (no samples
    moved), improvement/impurities = 0." *)
Definition init_split (self : SplitRecord) (start_pos : Z) : SplitRecord :=
  {| feature := feature self;
     threshold := threshold self;
     pos := start_pos;
     improvement := 0%float;
     impurity_left := 0%float;
     impurity_right := 0%float |}.

(** ** treebuilder.h: the frontier record [P] and its ordering *)

Record P : Type := mkP {
  _node_id : Z;
  _start : Z;
  _end : Z;
  _pos : Z;
  _depth : Z;
  _is_leaf : bool;
  _impurity : double;
  _impurity_left : double;
  _impurity_right : double;
  _improvement : double
}.

(** [inline bool operator < (const P& p1, const P& p2)]. *)
Definition operator_lt (p1 p2 : P) : bool :=
  (_improvement p1 <? _improvement p2)%float.

(** Frontier records used as concrete inputs below. *)
Definition frontier_low : P := mkP 1 0 2 1 1 false 0.5 0 0 0.25.
Definition frontier_high : P := mkP 2 2 4 3 1 false 0.5 0 0 0.5.
Definition frontier_nan : P := mkP 3 0 1 0 2 true 0 0 0 nan.
Definition tie_first : P := mkP 2 2 4 3 1 false 0.5 0 0 0.5.
Definition tie_second : P := mkP 1 0 2 1 1 false 0.5 0 0 0.5.

(** ** [std::priority_queue<T>] over [std::vector<T>]

    [push(x)] is [c.push_back(x); std::push_heap(c.begin(), c.end(), comp)],
    [top()] is [c.front()], and [pop()] is
    [std::pop_heap(c.begin(), c.end(), comp); c.pop_back()]. The heap
    algorithms are the ones of libstdc++ ([__push_heap], [__adjust_heap]). *)

Section priority_queue.
Context {T : Type} (comp : T → T → bool).

(** [__push_heap(first, holeIndex, topIndex, value, comp)]: the hole climbs
    while its parent compares less than [value]. Each turn moves the hole to
    its parent, so [S holeIndex] turns of [fuel] are never used up. *)
Fixpoint push_heap_loop (fuel : nat) (c : list T) (holeIndex topIndex : nat)
    (value : T) : list T :=
  match fuel with
  | O => <[holeIndex := value]> c
  | S fuel' =>
      let parent := ((holeIndex - 1) / 2)%nat in
      match c !! parent with
      | Some pv =>
          if bool_decide (topIndex < holeIndex)%nat && comp pv value
          then push_heap_loop fuel' (<[holeIndex := pv]> c) parent topIndex value
          else <[holeIndex := value]> c
      | None => <[holeIndex := value]> c
      end
  end.

Definition std_push_heap_at (c : list T) (holeIndex topIndex : nat) (value : T) : list T :=
  push_heap_loop (S holeIndex) c holeIndex topIndex value.

(** The descent of [__adjust_heap]: the larger child moves into the hole
    until the hole has no two children left. Returns the vector and the
    final [holeIndex]. Each turn moves the hole down, so [len] turns of
    [fuel] are never used up. *)
Fixpoint adjust_heap_descend (fuel : nat) (c : list T) (holeIndex len : nat)
    : list T * nat :=
  match fuel with
  | O => (c, holeIndex)
  | S fuel' =>
      if bool_decide (holeIndex < (len - 1) / 2)%nat then
        let secondChild := (2 * (holeIndex + 1))%nat in
        match c !! secondChild, c !! (secondChild - 1)%nat with
        | Some r, Some l =>
            let secondChild := if comp r l then (secondChild - 1)%nat else secondChild in
            let v := if comp r l then l else r in
            adjust_heap_descend fuel' (<[holeIndex := v]> c) secondChild len
        | _, _ => (c, holeIndex)
        end
      else (c, holeIndex)
  end.

(** [__adjust_heap(first, holeIndex, len, value, comp)]. *)
Definition std_adjust_heap (c : list T) (holeIndex len : nat) (value : T) : list T :=
  let topIndex := holeIndex in
  let '(c, secondChild) := adjust_heap_descend len c holeIndex len in
  let '(c, holeIndex) :=
    if Nat.even len && bool_decide (secondChild = (len - 2) / 2)%nat then
      let child := (2 * (secondChild + 1) - 1)%nat in
      match c !! child with
      | Some l => (<[secondChild := l]> c, child)
      | None => (c, secondChild)
      end
    else (c, secondChild) in
  std_push_heap_at c holeIndex topIndex value.

Definition pq_empty : list T := [].

Definition pq_push (c : list T) (x : T) : list T :=
  std_push_heap_at (c ++ [x]) (length c) 0 x.

Definition pq_top (c : list T) : option T := head c.

(** [pop()] on an empty queue is outside the container's contract; the
    model leaves the empty queue empty. *)
Definition pq_pop (c : list T) : list T :=
  match c with
  | [] => []
  | [_] => []
  | _ :: _ :: _ =>
      let n := (length c - 1)%nat in
      match c !! n with
      | Some value => std_adjust_heap (take n c) 0 n value
      | None => c
      end
  end.

(** The elements in the order in which the queue gives them up when it is
    emptied by [top()] and [pop()]; a queue of [n] elements is empty after
    [n] turns. *)
Fixpoint pq_drain_loop (fuel : nat) (c : list T) : list T :=
  match fuel with
  | O => []
  | S fuel' =>
      match pq_top c with
      | Some t => t :: pq_drain_loop fuel' (pq_pop c)
      | None => []
      end
  end.

Definition pq_drain (c : list T) : list T := pq_drain_loop (length c) c.

(** The queues a program can build. *)
Inductive pq_reachable : list T → Prop :=
| reach_empty : pq_reachable pq_empty
| reach_push c x : pq_reachable c → pq_reachable (pq_push c x)
| reach_pop c : pq_reachable c → pq_reachable (pq_pop c).

(** The heap order of the vector: no element compares less than a child
    of its. *)
Definition parent (i : nat) : nat := ((i - 1) / 2)%nat.

Definition is_heap (c : list T) : Prop :=
  ∀ i x y, (0 < i)%nat → c !! parent i = Some x → c !! i = Some y → comp x y = false.

(** A vector that is a heap but for the slot [h], which waits for [v]. *)
Record heap_hole (c : list T) (h : nat) (v : T) : Prop := {
  hole_others : ∀ i x y, (0 < i)%nat → i ≠ h → parent i ≠ h →
    c !! parent i = Some x → c !! i = Some y → comp x y = false;
  hole_children : ∀ i y, (0 < i)%nat → parent i = h → c !! i = Some y → comp v y = false;
  hole_grand : ∀ i x y, (0 < i)%nat → parent i = h → (0 < h)%nat →
    c !! parent h = Some x → c !! i = Some y → comp x y = false
}.

(** During the descent the slot [h] still holds the value that went up. *)
Definition hole_dup (c : list T) (h : nat) : Prop := h = 0%nat ∨ c !! parent h = c !! h.

(** An element through which "not less" chains. *)
Definition ordered (x : T) : Prop :=
  ∀ a b, comp a x = false → comp x b = false → comp a b = false.
End priority_queue.

(** ** treebuilder.h: [BestFirstTreeBuilder::_add_to_frontier]

    [inline void _add_to_frontier(const P& p, priority_queue<P> pq)]: the
    second parameter is an object of its own, copy-initialised from the
    caller's argument and destroyed at return. Objects live in a store; the
    caller's frontier is the object at address [frontier]. *)

Abbreviation store := (gmap nat (list P)).

Definition fresh_addr (σ : store) : nat := fresh (dom σ : gset nat).

Definition _add_to_frontier (p : P) (frontier : nat) (σ : store) : option store :=
  arg ← σ !! frontier;
  let pq := fresh_addr σ in
  let σ := <[pq := arg]> σ in
  let σ := <[pq := pq_push operator_lt arg
                      (mkP (_node_id p) (_start p) (_end p) (_pos p) (_depth p)
                           (_is_leaf p) (_impurity p) (_impurity_left p)
                           (_impurity_right p) (_improvement p))]> σ in
  Some (delete pq σ).

(** ** splitter.h: [rand_int] and [rand_double]

    [<cstdlib>] is not part of the repository: [RAND_MAX], the generator
    state and the two library functions are parameters. [std::srand(seed)]
    overwrites the generator with a state that depends on [seed] alone;
    [std::rand()] returns a value in [0, RAND_MAX] and advances it. *)

Record CRand : Type := mkCRand {
  RAND_MAX : Z;
  rng : Type;
  srand : Z → rng;
  rand : rng → Z * rng;
  RAND_MAX_range : 32767 ≤ RAND_MAX ≤ INT_MAX;
  rand_range : ∀ g, 0 ≤ (rand g).1 ≤ RAND_MAX
}.

Section rand.
Context (L : CRand).

(** [inline int rand_int(int low, int high, int random_state)].
    The result is absent when [high - low] is zero: the remainder is then
    undefined. [%] truncates towards zero ([Z.rem]). *)
Definition rand_int (low high random_state : Z) (g : rng L) : option Z * rng L :=
  let g := srand L (to_unsigned random_state) in
  let '(random_variable, g) := rand L g in
  let d := int_sub high low in
  (if d =? 0 then None else Some (int_add low (Z.rem random_variable d)), g).

(** [inline int rand_double(int low, int high, int random_state)].
    [(high - low)] is an [int] subtraction; the product, the quotient by
    [RAND_MAX] and the sum are computed in [double]; the declared return
    type converts the sum to [int]. *)
Definition rand_double_value (low high random_variable : Z) : double :=
  ((int2double (int_sub high low) * int2double random_variable)
     / int2double (RAND_MAX L) + int2double low)%float.

Definition rand_double (low high random_state : Z) (g : rng L) : option Z * rng L :=
  let g := srand L (to_unsigned random_state) in
  let '(random_variable, g) := rand L g in
  (double2int (rand_double_value low high random_variable), g).

(** Modelled from the spec: the call in [RandomSplitter::node_split], whose
    body is not in splitter.h: "draw one threshold uniformly between the
    feature's observed min and max in range". The observed minimum and
    maximum are [double]s; the parameters of [rand_double] are [int]s, so
    the arguments are converted, and the [int] result becomes the [double]
    threshold. *)
Definition draw_threshold (min_feature_value max_feature_value : double)
    (random_state : Z) (g : rng L) : option double * rng L :=
  match double2int min_feature_value, double2int max_feature_value with
  | Some low, Some high =>
      let '(r, g) := rand_double low high random_state g in
      (int2double <$> r, g)
  | _, _ => (None, g)
  end.
End rand.

(** The generator that ISO C gives as its portable example:
    [next = next * 1103515245 + 12345; return (next / 65536) % 32768;]
    on [unsigned long] (64-bit), with [srand] storing the seed. *)
Definition iso_rand (next : Z) : Z * Z :=
  let next := (next * 1103515245 + 12345) mod 2 ^ 64 in
  ((next / 65536) mod 32768, next).

Lemma iso_RAND_MAX_range : 32767 ≤ 32767 ≤ INT_MAX.
Proof. unfold INT_MAX. lia. Qed.

Lemma iso_rand_range (g : Z) : 0 ≤ (iso_rand g).1 ≤ 32767.
Proof.
  unfold iso_rand; cbn [fst].
  pose proof (Z.mod_pos_bound ((g * 1103515245 + 12345) mod 2 ^ 64 / 65536) 32768).
  lia.
Qed.

Definition iso_c : CRand :=
  mkCRand 32767 Z (λ seed, seed) iso_rand iso_RAND_MAX_range iso_rand_range.

(** ** splitter.h: the [Splitter] family

    The classes and their members are declared in splitter.h; the bodies of
    [SplitRecord::init_split], [node_reset] and [node_split] are not part
    of it and are modelled from the spec. [Criterion] (criterion.h) and
    [cv::Mat] are collaborators from outside. *)

Definition FEATURE_THRESHOLD : double := 0x1.ad7f29abcaf48p-24.  (* 1e-7 *)

(** Modelled from the spec: the [Criterion] collaborator, whose header
    criterion.h is not under src/. The spec lists [reset], [update],
    [node_impurity], [children_impurity], [impurity_improvement] and
    [node_value] of a "stateful impurity evaluator bound to a sample range".
    [reset] binds it to the samples of a range (in their current order) and
    [update] to a boundary inside it: its answers are functions of that
    range and boundary. *)
Record Criterion : Type := mkCriterion {
  crit_node_impurity : list Z → double;
  crit_children_impurity : list Z → nat → double * double;
  crit_impurity_improvement : list Z → nat → double → double → double → double;
  crit_node_value : list Z → list double
}.

(** [class Splitter], with [Mat X], [Mat y] and [Mat sample_weight] read as
    element access. *)
Record Splitter : Type := mkSplitter {
  criterion : Criterion;
  max_features : Z;
  min_samples_leaf : Z;
  min_weight_leaf : double;
  random_state : Z;
  n_samples : Z;
  n_features : Z;
  samples : list Z;
  active_samples : list Z;
  features : list Z;
  constant_features : list Z;
  feature_values : list double;
  weighted_n_samples : double;
  start : Z;
  end_ : Z;
  X : Z → Z → double;
  y : Z → double;
  sample_weight : Z → double
}.

Definition set_range (a b : Z) (s : Splitter) : Splitter :=
  mkSplitter (criterion s) (max_features s) (min_samples_leaf s) (min_weight_leaf s)
    (random_state s) (n_samples s) (n_features s) (samples s) (active_samples s)
    (features s) (constant_features s) (feature_values s) (weighted_n_samples s)
    a b (X s) (y s) (sample_weight s).

Definition set_samples (l : list Z) (s : Splitter) : Splitter :=
  mkSplitter (criterion s) (max_features s) (min_samples_leaf s) (min_weight_leaf s)
    (random_state s) (n_samples s) (n_features s) l (active_samples s)
    (features s) (constant_features s) (feature_values s) (weighted_n_samples s)
    (start s) (end_ s) (X s) (y s) (sample_weight s).

Definition set_features (l : list Z) (s : Splitter) : Splitter :=
  mkSplitter (criterion s) (max_features s) (min_samples_leaf s) (min_weight_leaf s)
    (random_state s) (n_samples s) (n_features s) (samples s) (active_samples s)
    l (constant_features s) (feature_values s) (weighted_n_samples s)
    (start s) (end_ s) (X s) (y s) (sample_weight s).

(** The two strategy classes the properties are about.
    [PresortBestSplitter], for the spec a [BestSplitter] that reads a
    precomputed order, is left out. *)
Inductive strategy : Type := BestSplitter | RandomSplitter.

(** Modelled from the spec: the error taxonomy of its section 7. *)
Inductive error : Type := ShapeError | EmptyRangeError | CriterionError.

(** *** Sub-ranges of a vector *)

Definition slice {A : Type} (a b : nat) (l : list A) : list A := take (b - a) (drop a l).

Definition splice {A : Type} (a : nat) (new l : list A) : list A :=
  take a l ++ new ++ drop (a + length new) l.

Definition list_swap {A : Type} (i j : nat) (l : list A) : list A :=
  match l !! i, l !! j with
  | Some x, Some y => <[i := y]> (<[j := x]> l)
  | _, _ => l
  end.

(** The samples of the node, [samples[start:end)]. *)
Definition node_samples (s : Splitter) : list Z :=
  slice (Z.to_nat (start s)) (Z.to_nat (end_ s)) (samples s).

(** Modelled from the spec: the "total sample weight" of a group, summed in
    [double] from the left. *)
Definition total_weight (w : Z → double) (l : list Z) : double :=
  foldl (λ acc i, (acc + w i)%float) 0%float l.

(** *** Sorting the (value, index) pairs ascending

    Modelled from the spec: "sort the (value,index) pairs ascending". The
    spec names no algorithm; this one inserts each pair before the first
    pair that is not smaller, which keeps the order of equal values. *)

Fixpoint insert_pair (v : double * Z) (l : list (double * Z)) : list (double * Z) :=
  match l with
  | [] => [v]
  | w :: l' => if (w.1 <? v.1)%float then w :: insert_pair v l' else v :: l
  end.

Definition sort_pairs (l : list (double * Z)) : list (double * Z) :=
  foldr insert_pair [] l.

(** The pairs of a feature [f] over a list of samples. *)
Definition pairs (s : Splitter) (f : Z) (l : list Z) : list (double * Z) :=
  (λ i, (X s i f, i)) <$> l.

(** Whether sample [i] goes left under a split: [X[i, feature] <= threshold]. *)
Definition goes_left (s : Splitter) (split : SplitRecord) (i : Z) : bool :=
  (X s i (feature split) <=? threshold split)%float.

(** The order of the sorted pairs, and the values below a threshold. *)
Definition pair_le (v w : double * Z) : Prop := (v.1 <=? w.1)%float = true.

Abbreviation below thr := (λ v : double * Z, (v.1 <=? thr)%float = true).

(** Modelled from the spec: [Splitter::node_reset], declared in splitter.h
    without a body. "reset(start, end) narrows the active range, rebuilds
    Criterion's internal statistics for exactly that range, and returns the
    node's impurity." *)
Definition node_reset (s : Splitter) (start end_ : Z) : Splitter * double :=
  let s := set_range start end_ s in
  (s, crit_node_impurity (criterion s) (node_samples s)).

Section node_split.
Context (L : CRand).

(** The threshold taken for a boundary between two adjacent distinct values.
    The spec fixes no formula (its scenario has the root split "at feature
    value between 2 and 3"); the function is a parameter. *)
Context (threshold_between : double → double → double).

(** Modelled from the spec: split acceptance. "a candidate is accepted only
    if the left and right partitions each contain at least min_samples_leaf
    samples and at least min_weight_leaf total sample weight; candidates
    violating this are skipped". The candidate is the boundary [k] in the
    arrangement [A] of the node's samples: [take k A] goes left. *)
Definition acceptable (s : Splitter) (A : list Z) (k : nat) : bool :=
  (min_samples_leaf s <=? Z.of_nat k)
  && (min_samples_leaf s <=? Z.of_nat (length A - k))
  && (min_weight_leaf s <=? total_weight (sample_weight s) (take k A))%float
  && (min_weight_leaf s <=? total_weight (sample_weight s) (drop k A))%float.

(** Modelled from the spec: one candidate, "querying Criterion for the
    impurity improvement at each candidate boundary". *)
Definition evaluate (s : Splitter) (impurity : double) (f : Z) (A : list Z)
    (cand : nat * double) : option SplitRecord :=
  let '(k, thr) := cand in
  if acceptable s A k then
    let '(il, ir) := crit_children_impurity (criterion s) A k in
    Some {| feature := f;
            threshold := thr;
            pos := start s + Z.of_nat k;
            improvement := crit_impurity_improvement (criterion s) A k impurity il ir;
            impurity_left := il;
            impurity_right := ir |}
  else None.

(** Modelled from the spec: BestSplitter, "scan adjacent distinct values as
    candidate thresholds". [k] is the position of the head of [sp]; a
    boundary sits after it when the next value is larger. *)
Fixpoint best_boundaries (k : nat) (sp : list (double * Z)) : list (nat * double) :=
  match sp with
  | v1 :: (v2 :: _) as tl =>
      (if (v1.1 <? v2.1)%float then [(S k, threshold_between v1.1 v2.1)] else [])
      ++ best_boundaries (S k) tl
  | _ => []
  end.

(** Modelled from the spec: RandomSplitter, "draw one threshold uniformly
    between the feature's observed min and max in range"; the boundary is
    the number of values that the threshold does not exceed from below. *)
Definition random_boundaries (random_state : Z) (sp : list (double * Z)) (g : rng L)
    : list (nat * double) * rng L :=
  match head sp, last sp with
  | Some lo, Some hi =>
      match draw_threshold L lo.1 hi.1 random_state g with
      | (Some thr, g) => ([(length (filter (below thr) sp), thr)], g)
      | (None, g) => ([], g)
      end
  | _, _ => ([], g)
  end.

(** Modelled from the spec: the candidates of a feature, by strategy:
    "RandomSplitter differs only in how the threshold is chosen per sampled
    feature". *)
Definition boundaries (st : strategy) (random_state : Z) (sp : list (double * Z))
    (g : rng L) : list (nat * double) * rng L :=
  match st with
  | BestSplitter => (best_boundaries 0 sp, g)
  | RandomSplitter => random_boundaries random_state sp g
  end.

(** Modelled from the spec: "A feature whose max minus min value across the
    range is below a small fixed epsilon" is constant. *)
Definition is_constant (sp : list (double * Z)) : bool :=
  match head sp, last sp with
  | Some lo, Some hi => (hi.1 - lo.1 <? FEATURE_THRESHOLD)%float
  | _, _ => true
  end.

(** Modelled from the spec: the candidates that the best-split search has
    on one feature, "scan adjacent distinct values as candidate thresholds",
    when the node's samples are held in the arrangement [B]: the accepted
    ones of all the boundaries between two adjacent distinct values of the
    sorted pairs, and none for a feature that is constant on the node. *)
Definition scan_candidates (s : Splitter) (impurity : double) (f : Z) (B : list Z)
    : list SplitRecord :=
  let sp := sort_pairs (pairs s f B) in
  if is_constant sp then []
  else omap (evaluate s impurity f sp.*2) (best_boundaries 0 sp).

(** What the search carries from one drawn feature to the next. *)
Record search_state : Type := mkSearch {
  ss_samples : list Z;           (* arrangement of the node's samples *)
  ss_features : list Z;
  ss_n_constant : nat;           (* leading constant region *)
  ss_found : list SplitRecord;   (* accepted candidates, in order *)
  ss_rng : rng L
}.

(** Modelled from the spec: the search of [node_split]. "Feature sampling
    without replacement draws up to max_features distinct feature indices by
    repeatedly swapping a randomly chosen remaining feature ... sampling
    stops early once max_features features have been drawn or all features
    are exhausted". The unexamined region of [features] is
    [n_constant, n_constant + remaining); a constant feature goes to its
    front, into the constant region, a tried one to its back. Per feature:
    "collect the feature's value for every sample in [start, end), sort the
    (value,index) pairs ascending", then the candidates. *)
Fixpoint search (st : strategy) (s : Splitter) (impurity : double)
    (remaining budget : nat) (σ : search_state) : search_state :=
  match remaining, budget with
  | S remaining', S budget' =>
      let n_c := ss_n_constant σ in
      let f_i := (n_c + remaining)%nat in
      match rand_int L (Z.of_nat n_c) (Z.of_nat f_i) (random_state s) (ss_rng σ) with
      | (Some j, g) =>
          let j := Z.to_nat j in
          match ss_features σ !! j with
          | Some f =>
              let sp := sort_pairs (pairs s f (ss_samples σ)) in
              let A := sp.*2 in
              if is_constant sp then
                search st s impurity remaining' budget'
                  (mkSearch A (list_swap j n_c (ss_features σ)) (S n_c) (ss_found σ) g)
              else
                let '(cands, g) := boundaries st (random_state s) sp g in
                search st s impurity remaining' budget'
                  (mkSearch A (list_swap j (f_i - 1) (ss_features σ)) n_c
                     (ss_found σ ++ omap (evaluate s impurity f A) cands) g)
          | None => σ
          end
      | (None, g) => σ
      end
  | _, _ => σ
  end.

(** Modelled from the spec: "keeping the maximum" with "first found wins",
    a later candidate replaces the best one only when its improvement is
    strictly larger. *)
Definition keep_max (best c : SplitRecord) : SplitRecord :=
  if (improvement best <? improvement c)%float then c else best.

Definition improves (init c : SplitRecord) : Prop :=
  (improvement init <? improvement c)%float = true.

(** Modelled from the spec: the search as [node_split] starts it, with the
    leading [n_constant_features] features skipped and at most
    [max_features] draws. Its [ss_found] are the candidates that the call
    examines and accepts. *)
Definition run_search (st : strategy) (s : Splitter) (impurity : double)
    (n_constant_features : Z) (g : rng L) : search_state :=
  let n_c := Z.to_nat n_constant_features in
  search st s impurity (length (features s) - n_c) (Z.to_nat (max_features s))
    (mkSearch (node_samples s) (features s) n_c [] g).

(** Modelled from the spec: the arrangement that [node_split] leaves in the
    range, "a stable partition-in-place discipline": when a split was kept,
    the samples that go left, in their order, then the others. *)
Definition final_arrangement (s : Splitter) (best : SplitRecord) (B : list Z) : list Z :=
  if pos best <? end_ s
  then filter (λ i, goes_left s best i = true) B ++ filter (λ i, goes_left s best i = false) B
  else B.

(** Modelled from the spec: [node_split(impurity, split, n_constant_features)],
    of which splitter.h has the declaration and the comment "node_split
    reorganizes the node samples samples[start:end] in two subsets
    samples[start:pos] and samples[pos:end]". An empty range is an
    [EmptyRangeError]; the record starts from [init_split(end)], so that
    [pos] is [end] "when no improving split exists"; when a split was kept,
    the range is partitioned by [X[sample, feature] <= threshold]. Returns
    the splitter, the record, the new constant-feature count and the
    generator. *)
Definition node_split (st : strategy) (s : Splitter) (impurity : double)
    (n_constant_features : Z) (g : rng L)
    : error + (Splitter * SplitRecord * Z * rng L) :=
  if end_ s <=? start s then inl EmptyRangeError
  else
    let σ := run_search st s impurity n_constant_features g in
    let best := foldl keep_max (init_split SplitRecord_ctor (end_ s)) (ss_found σ) in
    let A := final_arrangement s best (ss_samples σ) in
    inr (set_features (ss_features σ)
           (set_samples (splice (Z.to_nat (start s)) A (samples s)) s),
         best, Z.of_nat (ss_n_constant σ), ss_rng σ).

(** *** Conditions and invariants used in the statements *)

(** The threshold of a boundary separates the two values. *)
Definition separates : Prop :=
  ∀ lo hi, (lo <? hi)%float = true →
    (lo <=? threshold_between lo hi)%float = true
    ∧ (threshold_between lo hi <? hi)%float = true.

(** The feature matrix holds no NaN. *)
Definition no_nan_features (s : Splitter) : Prop := ∀ i f, is_nan (X s i f) = false.

(** The node is a non-empty range of the sample vector. *)
Definition valid_range (s : Splitter) : Prop :=
  0 ≤ start s ∧ start s < end_ s ∧ end_ s ≤ Z.of_nat (length (samples s)).

(** What holds of every accepted candidate [c]: it is a boundary [k] of an
    arrangement [A] of the node's samples that passed the acceptance test,
    and (for well-ordered values) the samples that go left under [c] are
    the first [k] of [A]. *)
Definition valid_candidate (st : strategy) (s : Splitter) (c : SplitRecord) : Prop :=
  ∃ (A : list Z) (k : nat),
    A ≡ₚ node_samples s
    ∧ (k ≤ length A)%nat
    ∧ pos c = start s + Z.of_nat k
    ∧ acceptable s A k = true
    ∧ (st = BestSplitter → (0 < k < length A)%nat)
    ∧ (separates → no_nan_features s →
       filter (λ i, goes_left s c i = true) A = take k A).
End node_split.

(** ** treebuilder.h: [TreeBuilder] and the leaf policy *)

Definition MIN_IMPURITY_SPLIT : double := 0x1.ad7f29abcaf48p-24.  (* 1e-7 *)

Record TreeBuilder : Type := mkTreeBuilder {
  min_samples_split : Z;
  tb_min_samples_leaf : Z;
  tb_min_weight_leaf : double;
  max_depth : Z;
  max_leaf_nodes : Z
}.

(** Modelled from the spec: the leaf policy of both builders, whose [build]
    bodies are not in treebuilder.h. "a node becomes a leaf if any of —
    sample count < min_samples_split; depth >= max_depth; node impurity <= a
    fixed near-zero threshold; or find_split returns no improving candidate
    (pos >= end) or the best improvement is non-positive." The first three
    are decided before the split search, the last after it. *)
Definition leaf_before_split (b : TreeBuilder) (start end_ depth : Z) (impurity : double)
    : bool :=
  (end_ - start <? min_samples_split b)
  || (max_depth b <=? depth)
  || (impurity <=? MIN_IMPURITY_SPLIT)%float.

Definition leaf_after_split (end_ : Z) (split : SplitRecord) : bool :=
  (end_ <=? pos split) || (improvement split <=? 0)%float.

(** [struct N]: a work item of the depth-first builder. *)
Record N : Type := mkN {
  N_start : Z;
  N_end : Z;
  N_depth : Z;
  N_parent : Z;
  N_is_left : bool;
  N_impurity : double;
  N_n_constant_features : Z
}.

(** Modelled from the spec: the [Tree] collaborator, declared but not
    defined in treebuilder.h. "add_node(parent_id, is_left, is_leaf, feature,
    threshold, impurity, n_samples, weighted_n_samples) -> node_id; node ids
    are assigned in creation order starting at 0 for the root; the builder
    is responsible for setting the parent's left/right child field
    immediately after creation". The tree is the vector of its nodes. *)
Record Node : Type := mkNode {
  nd_parent : Z;
  nd_is_left : bool;
  nd_is_leaf : bool;
  nd_feature : Z;
  nd_threshold : double;
  nd_impurity : double;
  nd_n_samples : Z;
  nd_weighted_n_samples : double;
  nd_left_child : Z;
  nd_right_child : Z
}.

(** The value of an absent parent or child. *)
Definition TREE_NONE : Z := -1.

Definition add_node (t : list Node) (parent : Z) (is_left is_leaf : bool) (feature : Z)
    (threshold impurity : double) (n_node_samples : Z) (weighted : double)
    : list Node * Z :=
  (t ++ [mkNode parent is_left is_leaf feature threshold impurity n_node_samples
           weighted TREE_NONE TREE_NONE],
   Z.of_nat (length t)).

Definition set_child (t : list Node) (parent : Z) (is_left : bool) (node_id : Z)
    : list Node :=
  if parent =? TREE_NONE then t
  else
    match t !! Z.to_nat parent with
    | Some nd =>
        <[Z.to_nat parent :=
            mkNode (nd_parent nd) (nd_is_left nd) (nd_is_leaf nd) (nd_feature nd)
              (nd_threshold nd) (nd_impurity nd) (nd_n_samples nd)
              (nd_weighted_n_samples nd)
              (if is_left then node_id else nd_left_child nd)
              (if is_left then nd_right_child nd else node_id)]> t
    | None => t
    end.

Section build.
Context (L : CRand) (threshold_between : double → double → double).

Record build_state : Type := mkBuild {
  bs_splitter : Splitter;
  bs_stack : list N;
  bs_tree : list Node;
  bs_rng : rng L
}.

(** Modelled from the spec: one turn of the loop of
    [DepthFirstBuilder::build], whose body is not in treebuilder.h. "pop an
    item; call reset; decide leaf-vs-split via the policy below; if split,
    create two child work items with n_constant_features inherited/updated
    and push right-then-left ...; append one node to Tree either way,
    patching the popped item's parent's child-link field with this new node
    id if parent != NONE." *)
Definition build_step (b : TreeBuilder) (st : strategy) (item : N) (stack : list N)
    (σ : build_state) : error + build_state :=
  let '(s, impurity) := node_reset (bs_splitter σ) (N_start item) (N_end item) in
  let n_node_samples := N_end item - N_start item in
  let weighted := total_weight (sample_weight s) (node_samples s) in
  if leaf_before_split b (N_start item) (N_end item) (N_depth item) impurity then
    let '(t, node_id) :=
      add_node (bs_tree σ) (N_parent item) (N_is_left item) true 0 0%float impurity
        n_node_samples weighted in
    inr (mkBuild s stack (set_child t (N_parent item) (N_is_left item) node_id) (bs_rng σ))
  else
    match node_split L threshold_between st s impurity (N_n_constant_features item)
            (bs_rng σ) with
    | inl e => inl e
    | inr (s, split, n_constant_features, g) =>
        let is_leaf := leaf_after_split (N_end item) split in
        let '(t, node_id) :=
          add_node (bs_tree σ) (N_parent item) (N_is_left item) is_leaf (feature split)
            (threshold split) impurity n_node_samples weighted in
        let stack :=
          if is_leaf then stack
          else mkN (N_start item) (pos split) (N_depth item + 1) node_id true
                 (impurity_left split) n_constant_features
               :: mkN (pos split) (N_end item) (N_depth item + 1) node_id false
                    (impurity_right split) n_constant_features
               :: stack in
        inr (mkBuild s stack (set_child t (N_parent item) (N_is_left item) node_id) g)
    end.

(** "Terminates when the stack is empty"; [fuel] bounds the turns. *)
Fixpoint build_loop (fuel : nat) (b : TreeBuilder) (st : strategy) (σ : build_state)
    : error + build_state :=
  match fuel with
  | O => inr σ
  | S fuel' =>
      match bs_stack σ with
      | [] => inr σ
      | item :: stack =>
          match build_step b st item stack σ with
          | inl e => inl e
          | inr σ' => build_loop fuel' b st σ'
          end
      end
  end.

(** Modelled from the spec: [DepthFirstBuilder::build] over an initialised
    splitter, "a LIFO stack of work items, seeded with the root {0,
    n_samples, depth=0, parent=NONE, is_left=false, impurity=+inf,
    n_constant_features=0}". *)
Definition build (fuel : nat) (b : TreeBuilder) (st : strategy) (s : Splitter) (g : rng L)
    : error + build_state :=
  build_loop fuel b st
    (mkBuild s [mkN 0 (n_samples s) 0 TREE_NONE false infinity 0] [] g).

(** What a build leaves, without the generator. *)
Definition built (r : error + build_state) : error + (Splitter * list N * list Node) :=
  match r with
  | inl e => inl e
  | inr σ => inr (bs_splitter σ, bs_stack σ, bs_tree σ)
  end.
End build.

(** ** Concrete inputs

    An impurity evaluator to run the model on: the weighted variance of the
    targets, and the decrease of the weighted variance as improvement. *)

Definition weighted_sum (w f : Z → double) (l : list Z) : double :=
  foldl (λ acc i, (acc + w i * f i)%float) 0%float l.

Definition variance (w y : Z → double) (l : list Z) : double :=
  let sw := total_weight w l in
  let m := (weighted_sum w y l / sw)%float in
  (weighted_sum w (λ i, y i * y i)%float l / sw - m * m)%float.

Definition variance_criterion (w y : Z → double) : Criterion :=
  mkCriterion
    (variance w y)
    (λ A k, (variance w y (take k A), variance w y (drop k A)))
    (λ A k parent il ir,
       let wn := total_weight w A in
       (parent - total_weight w (take k A) / wn * il
               - total_weight w (drop k A) / wn * ir)%float)
    (λ A, [(weighted_sum w y A / total_weight w A)%float]).

(** Column vector as a function of the row. *)
Definition column (l : list double) (i : Z) : double := default 0%float (l !! Z.to_nat i).

(** The spec's scenario: 4 samples, 1 feature with values [1, 2, 3, 10]
    (stored in the row order [3, 10, 1, 2]), uniform weight, targets that
    follow the value, [min_samples_leaf = 1]. *)
Definition scenario : Splitter :=
  let w := λ _ : Z, 1%float in
  let y := column [1; 1; 0; 0]%float in
  mkSplitter (variance_criterion w y) 1 1 1%float 42 4 1 [0; 1; 2; 3] [] [0] [] []
    4%float 0 4 (λ i _, column [3; 10; 1; 2]%float i) y w.

(** The same data with [min_samples_leaf = 2]: the only split that leaves
    two samples on each side is the one between the values 2 and 3. *)
Definition two_per_leaf_scenario : Splitter :=
  let w := λ _ : Z, 1%float in
  let y := column [1; 1; 0; 0]%float in
  mkSplitter (variance_criterion w y) 1 2 1%float 42 4 1 [0; 1; 2; 3] [] [0] [] []
    4%float 0 4 (λ i _, column [3; 10; 1; 2]%float i) y w.

(** The spec's second scenario: 3 samples whose only feature is 5 for all,
    targets that differ. *)
Definition constant_scenario : Splitter :=
  let w := λ _ : Z, 1%float in
  let y := column [0; 1; 0]%float in
  mkSplitter (variance_criterion w y) 1 1 1%float 42 3 1 [0; 1; 2] [] [0] [] []
    3%float 0 3 (λ _ _, 5%float) y w.

(** A builder configuration for the scenarios: [min_samples_split = 2],
    [min_samples_leaf = 1], depth limit 10. *)
Definition scenario_builder : TreeBuilder := mkTreeBuilder 2 1 1%float 10 (-1).

(** A threshold that separates: the lower of the two values. *)
Definition lower_value (lo hi : double) : double := lo.

(** The outcome of [node_split] without the generator. *)
Definition outcome {G : Type} (r : error + (Splitter * SplitRecord * Z * G))
    : error + (Splitter * SplitRecord * Z) :=
  match r with
  | inl e => inl e
  | inr (s, split, n, _) => inr (s, split, n)
  end.

(** * Properties *)

(** ** Primitive floats: disequality by evaluation *)

Lemma float_neq_by_eqb (x y : double) : (x =? y)%float = false → is_nan x = false → x ≠ y.
Proof.
  intros Hne Hnan ->. unfold is_nan in Hnan.
  rewrite Hne in Hnan. discriminate.
Qed.

(** ** The order of [double] *)

Ltac rank_lia :=
  repeat match goal with x : (Z * Z * Z)%type |- _ => destruct x as [[? ?] ?] end;
  cbn [rank_lt] in *; unfold rank_lt in *; lia.

Lemma rank_compare_spec (a b : Z * Z * Z) :
  CompareSpec (a = b) (rank_lt a b) (rank_lt b a) (rank_compare a b).
Proof.
  destruct a as [[a1 a2] a3], b as [[b1 b2] b3]. unfold rank_compare, rank_lt.
  destruct (Z.compare_spec a1 b1); [|constructor; lia..].
  destruct (Z.compare_spec a2 b2); [|constructor; lia..].
  destruct (Z.compare_spec a3 b3); constructor; first [congruence|lia].
Qed.

Lemma SFcompare_rank (x y : spec_float) :
  SFcompare x y =
  match SFrank x, SFrank y with
  | Some a, Some b => Some (rank_compare a b)
  | _, _ => None
  end.
Proof.
  destruct x as [sx|sx| |sx mx ex], y as [sy|sy| |sy my ey];
    try destruct sx; try destruct sy; try reflexivity;
    cbn [SFcompare SFrank rank_compare].
  - rewrite Z.compare_opp. change (-1 ?= -1) with Eq. cbv iota.
    rewrite (Z.compare_antisym ex ey).
    destruct (ex ?= ey); reflexivity.
Qed.

Lemma ltb_rank (x y : double) :
  (x <? y)%float = true ↔ ∃ a b, Frank x = Some a ∧ Frank y = Some b ∧ rank_lt a b.
Proof.
  rewrite FloatAxioms.ltb_spec. unfold SFltb, Frank. rewrite SFcompare_rank.
  destruct (SFrank (Prim2SF x)) as [a|], (SFrank (Prim2SF y)) as [b|];
    try (split; [discriminate|intros (? & ? & ? & ? & ?); discriminate]).
  destruct (rank_compare_spec a b) as [->|H|H].
  - split; [discriminate|]. intros (a' & b' & [= <-] & [= <-] & H).
    rank_lia.
  - split; [eauto 6|reflexivity].
  - split; [discriminate|]. intros (a' & b' & [= <-] & [= <-] & H').
    rank_lia.
Qed.

Lemma leb_rank (x y : double) :
  (x <=? y)%float = true ↔ ∃ a b, Frank x = Some a ∧ Frank y = Some b ∧ ¬ rank_lt b a.
Proof.
  rewrite FloatAxioms.leb_spec. unfold SFleb, Frank. rewrite SFcompare_rank.
  destruct (SFrank (Prim2SF x)) as [a|], (SFrank (Prim2SF y)) as [b|];
    try (split; [discriminate|intros (? & ? & ? & ? & ?); discriminate]).
  destruct (rank_compare_spec a b) as [->|H|H].
  - split; [|reflexivity]. intros _. eexists _, _. split; [reflexivity|split; [reflexivity|]].
    rank_lia.
  - split; [|reflexivity]. intros _. eexists _, _. split; [reflexivity|split; [reflexivity|]].
    rank_lia.
  - split; [discriminate|]. intros (a' & b' & [= <-] & [= <-] & H'). contradiction.
Qed.

Lemma eqb_rank (x y : double) :
  (x =? y)%float = true ↔ ∃ a, Frank x = Some a ∧ Frank y = Some a.
Proof.
  rewrite FloatAxioms.eqb_spec. unfold SFeqb, Frank. rewrite SFcompare_rank.
  destruct (SFrank (Prim2SF x)) as [a|], (SFrank (Prim2SF y)) as [b|];
    try (split; [discriminate|intros (? & ? & ?); discriminate]).
  destruct (rank_compare_spec a b) as [->|H|H].
  - split; eauto.
  - split; [discriminate|]. intros (a' & [= <-] & [= <-]).
    rank_lia.
  - split; [discriminate|]. intros (a' & [= <-] & [= <-]).
    rank_lia.
Qed.

(** ** [std::priority_queue]: heap order and elements *)

Section heap_theory.
Context {T : Type} (comp : T → T → bool).
Hypothesis comp_asym : ∀ a b, comp a b = true → comp b a = false.
Hypothesis comp_trans : ∀ a b c, comp a b = true → comp b c = true → comp a c = true.
Hypothesis comp_mid : ∀ a b c v,
  comp b v = true → comp a b = false → comp b c = false → comp a c = false.

Local Open Scope nat_scope.
Local Abbreviation is_heap := (is_heap comp).
Local Abbreviation heap_hole := (heap_hole comp).
Local Abbreviation hole_dup := (@hole_dup T).
Local Abbreviation ordered := (ordered comp).

Lemma comp_irrefl a : comp a a = false.
Proof. destruct (comp a a) eqn:E; [|reflexivity]. rewrite (comp_asym _ _ E) in E. discriminate. Qed.

Lemma parent_lt i : 0 < i → parent i < i.
Proof.
  unfold parent. intros. pose proof (Nat.div_mod_eq (i - 1) 2).
  pose proof (Nat.mod_upper_bound (i - 1) 2). lia.
Qed.

Lemma parent_children i h : 0 < i → parent i = h → i = 2 * h + 1 ∨ i = 2 * h + 2.
Proof.
  unfold parent. intros. pose proof (Nat.div_mod_eq (i - 1) 2).
  pose proof (Nat.mod_upper_bound (i - 1) 2). lia.
Qed.

Lemma hole_fill c h v : h < length c → heap_hole c h v →
  (0 < h → ∀ x, c !! parent h = Some x → comp x v = false) →
  is_heap (<[h := v]> c).
Proof.
  intros Hh [H1 H2 H3] Hp i x y Hi Hx Hy.
  apply list_lookup_insert_Some in Hx, Hy.
  destruct Hy as [(-> & -> & _)|[Hih Hy]].
  - destruct Hx as [(E & _ & _)|[_ Hx]].
    + pose proof (parent_lt i Hi). lia.
    + eauto.
  - destruct Hx as [(E & -> & _)|[Hne Hx]].
    + eauto.
    + eapply H1; eauto.
Qed.

Lemma push_heap_loop_heap fuel : ∀ c h v,
  h < length c → h ≤ fuel → heap_hole c h v →
  is_heap (push_heap_loop comp fuel c h 0 v).
Proof.
  induction fuel as [|fuel IH]; intros c h v Hlen Hfuel Hhole.
  - cbn. apply hole_fill; [done..|lia].
  - cbn [push_heap_loop].
    destruct (c !! ((h - 1) / 2)) as [pv|] eqn:Epv;
      [|apply hole_fill; [done..|]; intros ? x Hx; unfold parent in Hx; congruence].
    destruct (bool_decide (0 < h)) eqn:Eh; cbn [andb].
    2:{ apply bool_decide_eq_false in Eh. apply hole_fill; [done..|lia]. }
    apply bool_decide_eq_true in Eh.
    destruct (comp pv v) eqn:Ecmp.
    2:{ apply hole_fill; [done..|]. intros _ x Hx. unfold parent in Hx. congruence. }
    pose proof (parent_lt h Eh) as Hpl. fold (parent h) in *.
    destruct Hhole as [H1 H2 H3].
    apply IH; [rewrite length_insert; lia|lia|].
    split.
    + intros i x y Hi Hne Hpne Hx Hy.
      apply list_lookup_insert_Some in Hx, Hy.
      destruct Hy as [(-> & -> & _)|[Hih Hy]]; [done|].
      destruct Hx as [(E & -> & _)|[Hne' Hx]].
      * eapply H3; eauto.
      * eapply H1; eauto.
    + intros i y Hi Hpi Hy.
      apply list_lookup_insert_Some in Hy.
      destruct Hy as [(-> & -> & _)|[Hih Hy]]; [by apply comp_asym|].
      assert (comp pv y = false) as Hpy.
      { eapply (H1 i); eauto; [lia|]. rewrite Hpi. done. }
      destruct (comp v y) eqn:Evy; [|done].
      rewrite (comp_trans _ _ _ Ecmp Evy) in Hpy. done.
    + intros i x y Hi Hpi Hp Hx Hy.
      pose proof (parent_lt _ Hp) as Hpp.
      rewrite list_lookup_insert_ne in Hx by lia.
      assert (comp x pv = false) as Hxpv.
      { eapply (H1 (parent h)); eauto; lia. }
      apply list_lookup_insert_Some in Hy.
      destruct Hy as [(-> & -> & _)|[Hih Hy]]; [done|].
      eapply comp_mid; [exact Ecmp|exact Hxpv|].
      eapply (H1 i); eauto; [lia|]. rewrite Hpi. done.
Qed.

Lemma heap_hole_leaf c h v :
  is_heap c → (∀ i, 0 < i → parent i = h → length c ≤ i) → heap_hole c h v.
Proof.
  intros Hc Hleaf. split.
  - intros i x y Hi _ _ Hx Hy. eauto.
  - intros i y Hi Hp Hy. apply lookup_lt_Some in Hy. specialize (Hleaf i Hi Hp). lia.
  - intros i x y Hi Hp _ _ Hy. apply lookup_lt_Some in Hy. specialize (Hleaf i Hi Hp). lia.
Qed.

Lemma pq_push_heap c x : is_heap c → is_heap (pq_push comp c x).
Proof.
  intros Hc. unfold pq_push, std_push_heap_at.
  apply push_heap_loop_heap; [rewrite length_app; cbn; lia|lia|].
  split.
  - intros i a b Hi Hne Hpne Ha Hb.
    assert (i < length c) as Hil.
    { apply lookup_lt_Some in Hb. rewrite length_app in Hb. cbn in Hb. lia. }
    pose proof (parent_lt i Hi).
    rewrite lookup_app_l in Ha, Hb by lia. eauto.
  - intros i y Hi Hp Hy. apply lookup_lt_Some in Hy. rewrite length_app in Hy. cbn in Hy.
    pose proof (parent_lt i Hi). lia.
  - intros i a b Hi Hp _ _ Hb. apply lookup_lt_Some in Hb. rewrite length_app in Hb.
    cbn in Hb. pose proof (parent_lt i Hi). lia.
Qed.

(** *** The elements *)

Lemma delete_insert_same (l : list T) i x : delete i (<[i := x]> l) = delete i l.
Proof.
  revert i. induction l as [|a l IH]; intros [|i]; cbn; try done. by rewrite IH.
Qed.

Lemma insert_Permutation (l : list T) i x y :
  l !! i = Some y → x :: l ≡ₚ y :: <[i := x]> l.
Proof.
  intros Hy. pose proof (lookup_lt_Some _ _ _ Hy) as Hi.
  rewrite (delete_Permutation l i y Hy) at 1.
  rewrite (delete_Permutation (<[i := x]> l) i x) by (by apply list_lookup_insert_eq).
  rewrite delete_insert_same. apply perm_swap.
Qed.

Lemma insert_move_Permutation (l : list T) h p v pv :
  h < length l → p ≠ h → l !! p = Some pv →
  <[p := v]> (<[h := pv]> l) ≡ₚ <[h := v]> l.
Proof.
  intros Hh Hne Hp.
  destruct (l !! h) as [w|] eqn:Ew; [|apply lookup_ge_None in Ew; lia].
  pose proof (insert_Permutation (<[h := pv]> l) p v pv) as HA.
  rewrite list_lookup_insert_ne in HA by done. specialize (HA Hp).
  pose proof (insert_Permutation l h pv w Ew) as HD.
  pose proof (insert_Permutation l h v w Ew) as HB.
  apply (Permutation_cons_inv (a := pv)), (Permutation_cons_inv (a := w)).
  rewrite <- HA, (perm_swap v w), <- HD, (perm_swap pv w), <- HB.
  rewrite (perm_swap v pv). done.
Qed.

Lemma push_heap_loop_Permutation fuel : ∀ c h top v,
  h < length c → push_heap_loop comp fuel c h top v ≡ₚ <[h := v]> c.
Proof.
  induction fuel as [|fuel IH]; intros c h top v Hlen; [done|].
  cbn [push_heap_loop].
  destruct (c !! ((h - 1) / 2)) as [pv|] eqn:Epv; [|done].
  destruct (bool_decide (top < h)) eqn:Eh; cbn [andb]; [|done].
  apply bool_decide_eq_true in Eh.
  destruct (comp pv v) eqn:Ecmp; [|done].
  assert (0 < h) as Hh0 by lia.
  pose proof (parent_lt h Hh0) as Hpl. fold (parent h) in *.
  rewrite IH by (rewrite length_insert; lia).
  apply insert_move_Permutation; [done|lia|done].
Qed.

Lemma pq_push_Permutation c x : pq_push comp c x ≡ₚ x :: c.
Proof.
  unfold pq_push, std_push_heap_at.
  rewrite push_heap_loop_Permutation by (rewrite length_app; cbn; lia).
  rewrite insert_app_r_alt, Nat.sub_diag by lia. cbn.
  by rewrite Permutation_app_comm.
Qed.

(** *** [pop] *)

Lemma two_children h len : h < (len - 1) / 2 ↔ 2 * h + 2 < len.
Proof.
  pose proof (Nat.div_mod_eq (len - 1) 2).
  pose proof (Nat.mod_upper_bound (len - 1) 2). lia.
Qed.

Lemma parent_left h : parent (2 * h + 1) = h.
Proof.
  unfold parent. replace (2 * h + 1 - 1) with (h * 2) by lia. apply Nat.div_mul. lia.
Qed.

Lemma parent_right h : parent (2 * h + 2) = h.
Proof.
  unfold parent. replace (2 * h + 2 - 1) with (1 + h * 2) by lia.
  rewrite Nat.div_add by lia. done.
Qed.

Lemma move_child_up c h j y :
  is_heap c → hole_dup c h → 0 < j → parent j = h → c !! j = Some y →
  (∀ s z, 0 < s → parent s = h → c !! s = Some z → comp y z = false) →
  is_heap (<[h := y]> c) ∧ hole_dup (<[h := y]> c) j.
Proof.
  intros Hc Hdup Hj Hpj Hy Hsib.
  pose proof (parent_lt j Hj) as Hlt. pose proof (lookup_lt_Some _ _ _ Hy) as Hjl.
  split.
  - intros i a b Hi Ha Hb.
    apply list_lookup_insert_Some in Ha, Hb.
    destruct Hb as [(-> & -> & _)|[Hih Hb]].
    + destruct Ha as [(E & _ & _)|[_ Ha]]; [pose proof (parent_lt i Hi); lia|].
      destruct Hdup as [->|Hdup]; [lia|].
      rewrite Hdup in Ha. rewrite <- Hpj in Ha. eauto.
    + destruct Ha as [(E & -> & _)|[Hne Ha]]; eauto.
  - right. rewrite Hpj, list_lookup_insert_eq by lia.
    rewrite list_lookup_insert_ne by lia. done.
Qed.

Lemma adjust_heap_descend_spec len fuel : ∀ c h,
  length c = len → h < len → len - h ≤ fuel → is_heap c → hole_dup c h →
  ∃ c' h', adjust_heap_descend comp fuel c h len = (c', h')
    ∧ is_heap c' ∧ length c' = len ∧ h' < len ∧ hole_dup c' h'
    ∧ ¬ 2 * h' + 2 < len
    ∧ ∀ v, <[h' := v]> c' ≡ₚ <[h := v]> c.
Proof.
  induction fuel as [|fuel IH]; intros c h Hlen Hh Hfuel Hc Hdup; [lia|].
  cbn [adjust_heap_descend].
  destruct (bool_decide (h < (len - 1) / 2)) eqn:E.
  2:{ apply bool_decide_eq_false in E. rewrite two_children in E.
      eexists _, _. split; [done|]. repeat split; done. }
  apply bool_decide_eq_true in E. rewrite two_children in E.
  replace (2 * (h + 1)) with (2 * h + 2) by lia.
  replace (2 * h + 2 - 1) with (2 * h + 1) by lia.
  destruct (c !! (2 * h + 2)) as [r|] eqn:Er; [|apply lookup_ge_None in Er; lia].
  destruct (c !! (2 * h + 1)) as [l|] eqn:El; [|apply lookup_ge_None in El; lia].
  set (j := if comp r l then 2 * h + 1 else 2 * h + 2).
  set (y := if comp r l then l else r).
  assert (0 < j ∧ parent j = h ∧ c !! j = Some y ∧ j < len ∧ h < j) as (Hj & Hpj & Hy & Hjl & Hhj).
  { subst j y. destruct (comp r l); repeat split;
      auto using parent_left, parent_right; lia. }
  assert (∀ s z, 0 < s → parent s = h → c !! s = Some z → comp y z = false) as Hsib.
  { intros s z Hs Hps Hz. destruct (parent_children s h Hs Hps) as [->| ->].
    - rewrite El in Hz. injection Hz as <-. subst y.
      destruct (comp r l) eqn:Erl; [apply comp_irrefl|done].
    - rewrite Er in Hz. injection Hz as <-. subst y.
      destruct (comp r l) eqn:Erl; [by apply comp_asym|apply comp_irrefl]. }
  destruct (move_child_up c h j y Hc Hdup Hj Hpj Hy Hsib) as [Hc' Hdup'].
  destruct (IH (<[h := y]> c) j) as (c' & h' & Eq & H1 & H2 & H3 & H4 & H5 & H6);
    [by rewrite length_insert|done|lia|done|done|].
  exists c', h'. split; [done|]. repeat split; try done.
  intros v. rewrite H6. apply insert_move_Permutation; [lia|lia|done].
Qed.

Lemma std_adjust_heap_spec c value :
  0 < length c → is_heap c →
  is_heap (std_adjust_heap comp c 0 (length c) value)
  ∧ std_adjust_heap comp c 0 (length c) value ≡ₚ <[0 := value]> c.
Proof.
  intros Hlen Hc. unfold std_adjust_heap.
  destruct (adjust_heap_descend_spec (length c) (length c) c 0)
    as (c' & h' & -> & Hc' & Hlen' & Hh' & Hdup & Hleaf & Hperm);
    [done|done|lia|done|by left|].
  destruct (Nat.even (length c) && bool_decide (h' = (length c - 2) / 2)) eqn:E.
  - apply andb_prop in E as [Ev Eh]. apply bool_decide_eq_true in Eh.
    apply Nat.even_spec in Ev as [m Hm].
    assert (2 * h' + 2 = length c) as Hch.
    { rewrite Hm. rewrite Hm in Eh.
      replace (2 * m - 2) with ((m - 1) * 2) in Eh by lia.
      rewrite Nat.div_mul in Eh by lia. lia. }
    replace (2 * (h' + 1) - 1) with (2 * h' + 1) by lia.
    destruct (c' !! (2 * h' + 1)) as [l|] eqn:El; [|apply lookup_ge_None in El; lia].
    destruct (move_child_up c' h' (2 * h' + 1) l) as [Hc'' _];
      [done|done|lia|apply parent_left|done| |].
    { intros s z Hs Hps Hz. destruct (parent_children s h' Hs Hps) as [->| ->].
      - rewrite El in Hz. injection Hz as <-. apply comp_irrefl.
      - apply lookup_lt_Some in Hz. lia. }
    split.
    + apply push_heap_loop_heap; [rewrite length_insert; lia|lia|].
      apply heap_hole_leaf; [done|]. intros i Hi Hp. rewrite length_insert.
      destruct (parent_children i _ Hi Hp); lia.
    + unfold std_push_heap_at.
      rewrite push_heap_loop_Permutation by (rewrite length_insert; lia).
      rewrite insert_move_Permutation by (done || lia). apply Hperm.
  - assert (length c ≤ 2 * h' + 1) as Hl.
    { destruct (Nat.even (length c)) eqn:Ev; cbn [andb] in E.
      - apply bool_decide_eq_false in E. apply Nat.even_spec in Ev as [m Hm].
        rewrite Hm in E.
        replace (2 * m - 2) with ((m - 1) * 2) in E by lia.
        rewrite Nat.div_mul in E by lia. lia.
      - assert (Nat.odd (length c) = true) as Ho
          by (rewrite <- Nat.negb_even, Ev; done).
        apply Nat.odd_spec in Ho as [m Hm]. lia. }
    split.
    + apply push_heap_loop_heap; [lia|lia|].
      apply heap_hole_leaf; [done|]. intros i Hi Hp.
      destruct (parent_children i _ Hi Hp); lia.
    + unfold std_push_heap_at.
      rewrite push_heap_loop_Permutation by lia. apply Hperm.
Qed.

Lemma is_heap_take c n : is_heap c → is_heap (take n c).
Proof.
  intros Hc i x y Hi Hx Hy.
  apply lookup_take_Some in Hx as [Hx _]. apply lookup_take_Some in Hy as [Hy _]. eauto.
Qed.

Lemma pq_pop_unfold c :
  2 ≤ length c →
  pq_pop comp c =
  match c !! (length c - 1) with
  | Some value => std_adjust_heap comp (take (length c - 1) c) 0 (length c - 1) value
  | None => c
  end.
Proof. destruct c as [|a [|b c]]; cbn [length]; [lia..|done]. Qed.

Lemma pq_pop_spec c t :
  is_heap c → pq_top c = Some t →
  is_heap (pq_pop comp c) ∧ c ≡ₚ t :: pq_pop comp c.
Proof.
  intros Hc Ht.
  destruct (decide (length c < 2)) as [Hshort|Hlong].
  { destruct c as [|a [|b c]]; [done| |cbn in Hshort; lia].
    injection Ht as <-. split; [|done]. intros i x y _ Hx. done. }
  rewrite pq_pop_unfold by lia.
  remember (length c - 1) as n eqn:En.
  destruct (c !! n) as [value|] eqn:Ev; [|apply lookup_ge_None in Ev; lia].
  assert (c = take n c ++ [value]) as Hl.
  { rewrite <- (take_drop n c) at 1. f_equal.
    apply list_eq. intros [|i].
    - rewrite lookup_drop, Nat.add_0_r. done.
    - rewrite lookup_drop. cbn. apply lookup_ge_None. lia. }
  assert (length (take n c) = n) as Htl by (rewrite length_take; lia).
  destruct (std_adjust_heap_spec (take n c) value) as [H1 H2];
    [lia|by apply is_heap_take|].
  rewrite Htl in H1, H2. split; [done|].
  rewrite H2. rewrite Hl at 1.
  destruct (take n c) as [|a' tl] eqn:Et; [cbn in Htl; lia|].
  assert (a' = t) as ->.
  { assert (take n c !! 0 = Some t) as H0.
    { rewrite lookup_take_lt by lia. destruct c; [done|]. done. }
    rewrite Et in H0. by injection H0. }
  cbn. constructor. by rewrite Permutation_app_comm.
Qed.

(** *** The top is a maximum *)

Lemma heap_top_max c t :
  is_heap c → Forall ordered c → pq_top c = Some t →
  ∀ y, y ∈ c → comp t y = false.
Proof.
  intros Hc Hord Ht y Hy.
  apply list_elem_of_lookup in Hy as [i Hy]. revert y Hy.
  induction (lt_wf i) as [i _ IH]. intros y Hy.
  destruct (decide (i = 0)) as [->|Hi].
  - destruct c; [done|]. cbn in Ht, Hy. injection Ht as ->. injection Hy as ->.
    apply comp_irrefl.
  - assert (0 < i) as Hi' by lia. pose proof (parent_lt i Hi') as Hp.
    pose proof (lookup_lt_Some _ _ _ Hy) as Hil.
    destruct (c !! parent i) as [x|] eqn:Ex; [|apply lookup_ge_None in Ex; lia].
    assert (ordered x) as Hx.
    { rewrite Forall_forall in Hord. apply Hord.
      by eapply list_elem_of_lookup_2. }
    apply (Hx t y); [by apply (IH (parent i))|by eapply (Hc i)].
Qed.
End heap_theory.

(** ** The frontier: [operator<] as the comparison of the queue *)

Lemma is_nan_false_rank (d : double) : is_nan d = false ↔ ∃ a, Frank d = Some a.
Proof.
  unfold is_nan. rewrite negb_false_iff, eqb_rank. split.
  - intros (a & Ha & _). eauto.
  - intros (a & Ha). eauto.
Qed.

Lemma ltb_false_rank (x y : double) (a b : Z * Z * Z) :
  Frank x = Some a → Frank y = Some b → (x <? y)%float = false → ¬ rank_lt a b.
Proof.
  intros Ha Hb Hlt Hr. assert ((x <? y)%float = true) as E by (apply ltb_rank; eauto 6).
  congruence.
Qed.

Lemma operator_lt_asym (p1 p2 : P) : operator_lt p1 p2 = true → operator_lt p2 p1 = false.
Proof.
  unfold operator_lt. intros (a & b & Ha & Hb & Hab)%ltb_rank.
  apply not_true_is_false. intros (b' & a' & Hb' & Ha' & Hba)%ltb_rank.
  rewrite Ha in Ha'. rewrite Hb in Hb'. injection Ha' as <-. injection Hb' as <-. rank_lia.
Qed.

Lemma operator_lt_trans (p1 p2 p3 : P) :
  operator_lt p1 p2 = true → operator_lt p2 p3 = true → operator_lt p1 p3 = true.
Proof.
  unfold operator_lt. intros (a & b & Ha & Hb & Hab)%ltb_rank (b' & c & Hb' & Hc & Hbc)%ltb_rank.
  rewrite Hb in Hb'. injection Hb' as <-.
  apply ltb_rank. exists a, c. split; [done|]. split; [done|]. rank_lia.
Qed.

Lemma operator_lt_ordered (p : P) : is_nan (_improvement p) = false → ordered operator_lt p.
Proof.
  intros (r & Hr)%is_nan_false_rank a b Hap Hpb. unfold operator_lt in *.
  apply not_true_is_false. intros (ra & rb & Ha & Hb & Hab)%ltb_rank.
  pose proof (ltb_false_rank _ _ _ _ Ha Hr Hap). pose proof (ltb_false_rank _ _ _ _ Hr Hb Hpb).
  rank_lia.
Qed.

Lemma operator_lt_mid (a b c v : P) :
  operator_lt b v = true → operator_lt a b = false → operator_lt b c = false →
  operator_lt a c = false.
Proof.
  intros Hbv. apply operator_lt_ordered, is_nan_false_rank.
  unfold operator_lt in Hbv. apply ltb_rank in Hbv as (rb & _ & Hb & _). eauto.
Qed.

Lemma operator_lt_eq (p1 p2 : P) :
  (_improvement p1 =? _improvement p2)%float = true →
  operator_lt p1 p2 = false ∧ operator_lt p2 p1 = false.
Proof.
  intros (a & H1 & H2)%eqb_rank. unfold operator_lt.
  split; apply not_true_is_false; intros (x & y & Hx & Hy & Hxy)%ltb_rank;
    assert (x = a) as -> by congruence; assert (y = a) as -> by congruence; rank_lia.
Qed.

Lemma frontier_is_heap (pq : list P) : pq_reachable operator_lt pq → is_heap operator_lt pq.
Proof.
  induction 1 as [|c x _ IH|c _ IH].
  - intros i x y _ Hx. unfold pq_empty in Hx. by rewrite lookup_nil in Hx.
  - by apply (pq_push_heap operator_lt operator_lt_asym operator_lt_trans operator_lt_mid).
  - destruct (pq_top c) as [t|] eqn:Et.
    + by apply (pq_pop_spec operator_lt operator_lt_asym operator_lt_trans operator_lt_mid c t).
    + destruct c; [|done]. intros i x y _ Hx. cbn in Hx. by rewrite lookup_nil in Hx.
Qed.

Lemma pq_push_two (p q : P) :
  pq_push operator_lt (pq_push operator_lt pq_empty p) q =
  if operator_lt p q then [q; p] else [p; q].
Proof.
  unfold pq_push, pq_empty, std_push_heap_at. cbn. destruct (operator_lt p q); done.
Qed.

(** *** The order in which a frontier gives up its records *)

Lemma no_nan_ordered (pq : list P) :
  Forall (λ p, is_nan (_improvement p) = false) pq → Forall (ordered operator_lt) pq.
Proof.
  intros H. eapply Forall_impl; [exact H|]. intros p Hp. by apply operator_lt_ordered.
Qed.

Lemma pq_drain_loop_spec (n : nat) : ∀ pq : list P,
  length pq = n →
  pq_reachable operator_lt pq →
  Forall (λ p, is_nan (_improvement p) = false) pq →
  pq_drain_loop operator_lt n pq ≡ₚ pq
  ∧ StronglySorted (λ a b, operator_lt a b = false) (pq_drain_loop operator_lt n pq).
Proof.
  induction n as [|n IH]; intros pq Hlen Hreach Hnan.
  - destruct pq; [|done]. split; [done|constructor].
  - destruct (pq_top pq) as [t|] eqn:Ht; [|by destruct pq].
    cbn [pq_drain_loop]. rewrite Ht.
    pose proof (frontier_is_heap pq Hreach) as Hheap.
    destruct (pq_pop_spec operator_lt operator_lt_asym operator_lt_trans operator_lt_mid
                pq t Hheap Ht) as [_ Hperm].
    destruct (IH (pq_pop operator_lt pq)) as [Hd Hs].
    + apply Permutation_length in Hperm. cbn in Hperm. lia.
    + by constructor.
    + rewrite Hperm in Hnan. by apply Forall_cons in Hnan as [_ ?].
    + split; [by rewrite Hd|]. constructor; [done|].
      apply Forall_forall. intros y Hy.
      apply (heap_top_max operator_lt operator_lt_asym pq t Hheap); [by apply no_nan_ordered|done|].
      rewrite Hperm. apply list_elem_of_further. by rewrite <- Hd.
Qed.

Lemma StronglySorted_lookup_lt {A} (R : A → A → Prop) (l : list A) :
  StronglySorted R l →
  ∀ i j x y, (i < j)%nat → l !! i = Some x → l !! j = Some y → R x y.
Proof.
  induction 1 as [|a l Hs IH Ha]; intros i j x y Hij Hx Hy; [by rewrite lookup_nil in Hx|].
  destruct j as [|j]; [lia|]. cbn in Hy.
  destruct i as [|i].
  - injection Hx as <-. rewrite Forall_forall in Ha. apply Ha.
    by eapply list_elem_of_lookup_2.
  - cbn in Hx. apply (IH i j); [lia|done|done].
Qed.

(** C4, as stated, fails: in a frontier built by four pushes, one record
    with improvement [0.25], two with a NaN improvement and one with
    improvement [0.5], the record with [0.25] is on top and is popped first,
    and the record with the strictly higher improvement [0.5] is popped
    last. *)
Lemma frontier_lower_improvement_popped_first :
  let pq := foldl (pq_push operator_lt) pq_empty
              [frontier_low; frontier_nan; frontier_nan; frontier_high] in
  pq_reachable operator_lt pq
  ∧ (_improvement frontier_low <? _improvement frontier_high)%float = true
  ∧ pq_top pq = Some frontier_low
  ∧ pq_drain operator_lt pq = [frontier_low; frontier_nan; frontier_nan; frontier_high].
Proof.
  cbv zeta. split; [cbn [foldl]; repeat constructor|].
  split; [reflexivity|]. split; reflexivity.
Qed.

(** C4, amended. A frontier built by pushes and pops whose records have no
    NaN improvement gives up its records in the order of their improvement:
    emptying it by [top()] and [pop()] yields every record once, and of two
    records the one with the strictly higher improvement comes out first.
    In particular the lower one is never on top while the higher one is in
    the frontier. The comparison itself, [operator<], looks at the
    improvement alone. *)
Theorem frontier_highest_improvement_first (pq : list P) :
  pq_reachable operator_lt pq →
  Forall (λ p, is_nan (_improvement p) = false) pq →
  pq_drain operator_lt pq ≡ₚ pq
  ∧ pq_top pq = head (pq_drain operator_lt pq)
  ∧ (∀ i j p1 p2,
       pq_drain operator_lt pq !! i = Some p1 →
       pq_drain operator_lt pq !! j = Some p2 →
       (_improvement p1 <? _improvement p2)%float = true → (j < i)%nat)
  ∧ (∀ p1 p2, p1 ∈ pq → p2 ∈ pq →
       (_improvement p1 <? _improvement p2)%float = true → pq_top pq ≠ Some p1)
  ∧ (∀ p1 p2, (_improvement p1 <? _improvement p2)%float = true →
       operator_lt p1 p2 = true ∧ operator_lt p2 p1 = false).
Proof.
  intros Hreach Hnan.
  destruct (pq_drain_loop_spec (length pq) pq eq_refl Hreach Hnan) as [Hperm Hsorted].
  fold (pq_drain operator_lt pq) in Hperm, Hsorted.
  split; [done|].
  split; [unfold pq_drain; destruct pq; [done|]; cbn [length pq_drain_loop]; by cbn|].
  split; [|split].
  - intros i j p1 p2 H1 H2 Hlt.
    assert (operator_lt p1 p2 = true) as H12 by done.
    destruct (decide (j < i)%nat) as [|Hge]; [done|]. exfalso.
    destruct (decide (i = j)) as [->|Hne].
    + assert (p1 = p2) as -> by congruence.
      pose proof (operator_lt_asym _ _ H12). congruence.
    + pose proof (StronglySorted_lookup_lt _ _ Hsorted i j p1 p2) as H.
      cbv beta in H. rewrite H in H12; [done|lia|done|done].
  - intros p1 p2 H1 H2 Hlt Htop.
    assert (operator_lt p1 p2 = false); [|unfold operator_lt in *; congruence].
    apply (heap_top_max operator_lt operator_lt_asym pq p1);
      auto using frontier_is_heap, no_nan_ordered.
  - intros p1 p2 Hlt. split; [done|]. by apply operator_lt_asym.
Qed.

Lemma frontier_highest_improvement_first_witness :
  let pq := pq_push operator_lt (pq_push operator_lt pq_empty frontier_low) frontier_high in
  pq_drain operator_lt pq ≡ₚ pq
  ∧ pq_top pq = head (pq_drain operator_lt pq)
  ∧ (∀ i j p1 p2,
       pq_drain operator_lt pq !! i = Some p1 →
       pq_drain operator_lt pq !! j = Some p2 →
       (_improvement p1 <? _improvement p2)%float = true → (j < i)%nat)
  ∧ (∀ p1 p2, p1 ∈ pq → p2 ∈ pq →
       (_improvement p1 <? _improvement p2)%float = true → pq_top pq ≠ Some p1)
  ∧ (∀ p1 p2, (_improvement p1 <? _improvement p2)%float = true →
       operator_lt p1 p2 = true ∧ operator_lt p2 p1 = false).
Proof.
  apply (frontier_highest_improvement_first
           (pq_push operator_lt (pq_push operator_lt pq_empty frontier_low) frontier_high)).
  - repeat constructor.
  - vm_compute. repeat constructor.
Defined.

(** C5, as stated, fails: of two records with equal improvement the one
    with the larger node id is on top when it was pushed first. *)
Lemma tie_not_broken_by_node_id :
  (_improvement tie_first =? _improvement tie_second)%float = true
  ∧ _node_id tie_second < _node_id tie_first
  ∧ pq_reachable operator_lt (pq_push operator_lt (pq_push operator_lt pq_empty tie_first) tie_second)
  ∧ pq_top (pq_push operator_lt (pq_push operator_lt pq_empty tie_first) tie_second)
    = Some tie_first.
Proof.
  split; [reflexivity|]. split; [reflexivity|]. split; [|reflexivity].
  do 2 constructor. constructor.
Qed.

(** C5, amended. Two records with equal improvement are equivalent for
    [operator<], whatever their node ids, and of the two the one pushed first
    is on top. *)
Theorem tie_broken_by_insertion (p1 p2 : P) :
  (_improvement p1 =? _improvement p2)%float = true →
  operator_lt p1 p2 = false
  ∧ operator_lt p2 p1 = false
  ∧ pq_top (pq_push operator_lt (pq_push operator_lt pq_empty p1) p2) = Some p1
  ∧ pq_top (pq_push operator_lt (pq_push operator_lt pq_empty p2) p1) = Some p2.
Proof.
  intros [H12 H21]%operator_lt_eq. rewrite !pq_push_two, H12, H21. done.
Qed.

Lemma tie_broken_by_insertion_witness :
  operator_lt tie_first tie_second = false
  ∧ operator_lt tie_second tie_first = false
  ∧ pq_top (pq_push operator_lt (pq_push operator_lt pq_empty tie_first) tie_second)
    = Some tie_first
  ∧ pq_top (pq_push operator_lt (pq_push operator_lt pq_empty tie_second) tie_first)
    = Some tie_second.
Proof. apply (tie_broken_by_insertion tie_first tie_second). reflexivity. Defined.

(** ** [SplitRecord] *)

Lemma SplitRecord_copy_fields (raw r : SplitRecord) :
  SplitRecord_copy raw r =
  mkSplitRecord (feature r) (threshold r) (pos r) (improvement r)
                (impurity_left raw) (impurity_right raw).
Proof. reflexivity. Qed.

(** C10. The copy constructor copies [feature], [pos], [threshold] and
    [improvement], and leaves [impurity_left] and [impurity_right] as the
    storage held them: copying the record [(3, 0.5, 7, 0.25, 0.5, 0.75)] into
    zeroed storage yields impurities [0] and [0], not [0.5] and [0.75]. *)
Theorem SplitRecord_copy_loses_impurities :
  let r := mkSplitRecord 3 0.5 7 0.25 0.5 0.75 in
  let raw := mkSplitRecord 0 0 0 0 0 0 in
  SplitRecord_copy raw r = mkSplitRecord 3 0.5 7 0.25 0 0
  ∧ impurity_left (SplitRecord_copy raw r) ≠ impurity_left r
  ∧ impurity_right (SplitRecord_copy raw r) ≠ impurity_right r.
Proof.
  cbv zeta. rewrite SplitRecord_copy_fields. cbn [impurity_left impurity_right feature
    threshold pos improvement].
  split; [reflexivity|].
  split; apply float_neq_by_eqb; reflexivity.
Qed.

(** ** [_add_to_frontier] *)

Lemma fresh_addr_unused (σ : store) : σ !! fresh_addr σ = None.
Proof. apply not_elem_of_dom. unfold fresh_addr. apply is_fresh. Qed.

(** The call returns the store it was given: the push went to the
    parameter object, which no longer exists. *)
Lemma _add_to_frontier_store (p : P) (frontier : nat) (σ : store) (pq : list P) :
  σ !! frontier = Some pq → _add_to_frontier p frontier σ = Some σ.
Proof.
  intros Hpq. unfold _add_to_frontier. rewrite Hpq. cbn [mbind option_bind].
  f_equal. rewrite insert_insert_eq, delete_insert_eq.
  apply delete_id, fresh_addr_unused.
Qed.

(** C1. With an empty frontier at address [0], the call for a record [p]
    returns with that frontier still empty: [p] is not in it. *)
Theorem _add_to_frontier_caller_unchanged :
  let p := mkP 0 0 4 2 0 false 0.5 0 0 0.5 in
  let σ : store := {[ 0%nat := [] ]} in
  ∃ σ', _add_to_frontier p 0 σ = Some σ'
        ∧ σ' !! 0%nat = Some []
        ∧ ∀ pq, σ' !! 0%nat = Some pq → p ∉ pq.
Proof.
  cbv zeta. eexists. split; [|split].
  - apply (_add_to_frontier_store _ _ _ []). apply lookup_singleton_eq.
  - apply lookup_singleton_eq.
  - intros pq. rewrite lookup_singleton_eq. intros [= <-]. apply not_elem_of_nil.
Qed.

(** ** [rand_int], [rand_double] *)

Lemma in_int_bounds (z : Z) : in_int z = true ↔ - 2 ^ 31 ≤ z ≤ 2 ^ 31 - 1.
Proof.
  unfold in_int, INT_MIN, INT_MAX. rewrite andb_true_iff, !Z.leb_le. done.
Qed.

Lemma wrap_int_small (z : Z) : - 2 ^ 31 ≤ z ≤ 2 ^ 31 - 1 → wrap_int z = z.
Proof. intros H. unfold wrap_int. rewrite Z.mod_small; lia. Qed.

Lemma wrap_int_above (z : Z) : 2 ^ 31 ≤ z < 2 ^ 32 → wrap_int z = z - 2 ^ 32.
Proof.
  intros H. unfold wrap_int.
  replace (z + 2 ^ 31) with ((z - 2 ^ 31) + 1 * 2 ^ 32) by lia.
  rewrite Z.mod_add by lia. rewrite Z.mod_small; lia.
Qed.

Lemma wrap_int_below (z : Z) : - 2 ^ 32 ≤ z < - 2 ^ 31 → wrap_int z = z + 2 ^ 32.
Proof.
  intros H. unfold wrap_int.
  replace (z + 2 ^ 31) with ((z + 2 ^ 32 + 2 ^ 31) + (-1) * 2 ^ 32) by lia.
  rewrite Z.mod_add by lia. rewrite Z.mod_small; lia.
Qed.

(** A draw between non-negative [int] bounds succeeds and is in range. *)
Lemma rand_int_draw (L : CRand) (low high random_state : Z) (g : rng L) :
  0 ≤ low → low < high → high ≤ INT_MAX →
  ∃ j g', rand_int L low high random_state g = (Some j, g') ∧ low ≤ j < high.
Proof.
  intros Hl Hlt Hh. unfold INT_MAX in Hh.
  pose proof (rand_range L (srand L (to_unsigned random_state))) as Hr.
  pose proof (RAND_MAX_range L) as HM. unfold INT_MAX in HM.
  unfold rand_int. destruct (rand L (srand L (to_unsigned random_state))) as [r g'].
  cbn [fst] in Hr. unfold int_sub, int_add.
  rewrite (wrap_int_small (high - low)) by lia.
  destruct (high - low =? 0) eqn:E; [apply Z.eqb_eq in E; lia|].
  pose proof (Z.rem_bound_pos r (high - low)) as Hrem.
  eexists _, _. split; [reflexivity|]. rewrite wrap_int_small; lia.
Qed.

Lemma int_sub_nonzero (low high : Z) :
  in_int low = true → in_int high = true → low < high → int_sub high low ≠ 0.
Proof.
  unfold in_int, int_sub, wrap_int, INT_MIN, INT_MAX. intros Hl Hh Hlt.
  apply andb_prop in Hl as [Hl1 Hl2]. apply andb_prop in Hh as [Hh1 Hh2].
  apply Z.leb_le in Hl1, Hl2, Hh1, Hh2.
  destruct (Z_lt_le_dec (high - low) (2 ^ 31)) as [Hs|Hb].
  - rewrite Z.mod_small; lia.
  - replace (high - low + 2 ^ 31) with ((high - low - 2 ^ 31) + 1 * 2 ^ 32) by lia.
    rewrite Z.mod_add by lia. rewrite Z.mod_small; lia.
Qed.

Lemma forall_from_spec (n : nat) (z0 : Z) (f : Z → bool) :
  forall_from n z0 f = true → ∀ z, z0 ≤ z < z0 + Z.of_nat n → f z = true.
Proof.
  revert z0. induction n as [|n IH]; intros z0 H z Hz; [lia|].
  cbn [forall_from] in H. apply andb_prop in H as [H1 H2].
  destruct (Z.eq_dec z z0) as [->|Hne]; [exact H1|].
  apply (IH (z0 + 1)); [exact H2|lia].
Qed.

Lemma rand_double_value_equal_bounds_iso (r : Z) :
  0 ≤ r ≤ 32767 → rand_double_value iso_c 0 0 r = 0%float.
Proof.
  intros Hr. apply Leibniz.eqb_spec.
  apply (forall_from_spec (Z.to_nat 32768) 0
           (λ z, Leibniz.eqb (rand_double_value iso_c 0 0 z) 0)).
  - vm_compute. reflexivity.
  - rewrite Z2Nat.id; lia.
Qed.

(** C8. For a feature observed between [0.25] and [0.75] the threshold drawn
    through [rand_double] is [0], whatever the seed and the generator state:
    below the observed minimum. With the integer bounds [0] and [1] and the
    seed [24884], for which [rand()] returns [RAND_MAX], the value drawn is
    the upper bound [1] itself. *)
Theorem draw_threshold_outside_range (random_state : Z) (g : rng iso_c) :
  (draw_threshold iso_c 0.25 0.75 random_state g).1 = Some 0%float
  ∧ (0 <? 0.25)%float = true
  ∧ (rand iso_c (srand iso_c (to_unsigned 24884))).1 = RAND_MAX iso_c
  ∧ (rand_double iso_c 0 1 24884 g).1 = Some 1
  ∧ (draw_threshold iso_c 0 1 24884 g).1 = Some 1%float
  ∧ (1 <? 1)%float = false.
Proof.
  split; [|repeat split; reflexivity].
  unfold draw_threshold.
  replace (double2int 0.25) with (Some 0) by reflexivity.
  replace (double2int 0.75) with (Some 0) by reflexivity.
  unfold rand_double.
  destruct (rand iso_c (srand iso_c (to_unsigned random_state))) as [r g'] eqn:E.
  cbn [fst].
  assert (Hr : 0 ≤ r ≤ 32767).
  { pose proof (rand_range iso_c (srand iso_c (to_unsigned random_state))) as H.
    rewrite E in H. exact H. }
  rewrite (rand_double_value_equal_bounds_iso r Hr). reflexivity.
Qed.

(** ** Sub-ranges *)

Section slices.
Context {A : Type}.
Implicit Types l new : list A.
Local Open Scope nat_scope.

Lemma length_splice a new l :
  a + length new ≤ length l → length (splice a new l) = length l.
Proof.
  intros H. unfold splice. rewrite !length_app, length_take, length_drop. lia.
Qed.

Lemma take_splice a new l : a ≤ length l → take a (splice a new l) = take a l.
Proof.
  intros H. unfold splice. rewrite take_app_le by (rewrite length_take; lia).
  rewrite take_take. f_equal. lia.
Qed.

Lemma drop_splice a new l :
  a ≤ length l → drop (a + length new) (splice a new l) = drop (a + length new) l.
Proof.
  intros H. unfold splice.
  rewrite drop_app_ge by (rewrite length_take; lia).
  rewrite length_take, Nat.min_l by lia.
  rewrite drop_app_ge by lia.
  replace (a + length new - a - length new) with 0 by lia. done.
Qed.

Lemma slice_splice a k1 k2 new l :
  a ≤ length l →
  slice (a + k1) (a + k2) (splice a new l)
  = take (k2 - k1) (drop k1 (new ++ drop (a + length new) l)).
Proof.
  intros Ha. unfold slice, splice.
  rewrite drop_app_ge by (rewrite length_take; lia).
  rewrite length_take, Nat.min_l by lia.
  replace (a + k2 - (a + k1)) with (k2 - k1) by lia.
  replace (a + k1 - a) with k1 by lia. done.
Qed.

Lemma slice_splice_left a k new l :
  a ≤ length l → k ≤ length new → slice a (a + k) (splice a new l) = take k new.
Proof.
  intros Ha Hk. rewrite <- (Nat.add_0_r a) at 1.
  rewrite slice_splice by lia. rewrite drop_0, Nat.sub_0_r.
  by rewrite take_app_le.
Qed.


Lemma length_slice a b l : b ≤ length l → length (slice a b l) = b - a.
Proof. intros H. unfold slice. rewrite length_take, length_drop. lia. Qed.

Lemma slice_split a p b l :
  a ≤ p → p ≤ b → slice a b l = slice a p l ++ slice p b l.
Proof.
  intros H1 H2. unfold slice.
  replace (b - a) with ((p - a) + (b - p)) by lia.
  rewrite <- take_take_drop, drop_drop.
  replace (a + (p - a)) with p by lia. done.
Qed.
End slices.

(** *** Swapping two elements *)

Section swaps.
Context {A : Type}.
Implicit Types l : list A.
Local Open Scope nat_scope.

Lemma length_list_swap i j l : length (list_swap i j l) = length l.
Proof.
  unfold list_swap. destruct (l !! i), (l !! j); by rewrite ?length_insert.
Qed.

Lemma list_swap_lookup_r i j l x :
  j < length l → l !! i = Some x → list_swap i j l !! j = Some x.
Proof.
  intros Hj Hi. unfold list_swap. rewrite Hi.
  destruct (l !! j) as [y|] eqn:Ey; [|apply lookup_ge_None in Ey; lia].
  destruct (decide (i = j)) as [->|Hne].
  - rewrite list_lookup_insert_eq by (by rewrite length_insert). congruence.
  - rewrite list_lookup_insert_ne by done. by rewrite list_lookup_insert_eq.
Qed.

Lemma list_swap_Permutation i j l : list_swap i j l ≡ₚ l.
Proof.
  unfold list_swap.
  destruct (l !! i) as [x|] eqn:Ex; [|done]. destruct (l !! j) as [y|] eqn:Ey; [|done].
  pose proof (lookup_lt_Some _ _ _ Ey) as Hj.
  destruct (decide (i = j)) as [->|Hne].
  - assert (x = y) as -> by congruence.
    by rewrite !(list_insert_id l j y).
  - rewrite (insert_move_Permutation l j i y x) by done. by rewrite list_insert_id.
Qed.

Lemma slice_list_swap a b i j l :
  a ≤ i < b → a ≤ j < b → b ≤ length l →
  slice a b (list_swap i j l) = list_swap (i - a) (j - a) (slice a b l).
Proof.
  intros Hi Hj Hb. unfold list_swap, slice.
  rewrite !lookup_take_lt, !lookup_drop by lia.
  replace (a + (i - a)) with i by lia. replace (a + (j - a)) with j by lia.
  destruct (l !! i) as [x|] eqn:Ex; [|apply lookup_ge_None in Ex; lia].
  destruct (l !! j) as [y|] eqn:Ey; [|apply lookup_ge_None in Ey; lia].
  rewrite !drop_insert_ge by lia. by rewrite !take_insert_lt by lia.
Qed.

Lemma slice_list_swap_Permutation a b i j l :
  a ≤ i < b → a ≤ j < b → b ≤ length l →
  slice a b (list_swap i j l) ≡ₚ slice a b l.
Proof. intros. rewrite slice_list_swap by done. apply list_swap_Permutation. Qed.

Lemma slice_cons a b l x : a < b → l !! a = Some x → slice a b l = x :: slice (S a) b l.
Proof.
  intros Hab Hx. unfold slice. rewrite (drop_S l x a Hx).
  by replace (b - a) with (S (b - S a)) by lia.
Qed.

Lemma slice_snoc a b l x : a ≤ b → l !! b = Some x → slice a (S b) l = slice a b l ++ [x].
Proof.
  intros Hab Hx. unfold slice. replace (S b - a) with (S (b - a)) by lia.
  apply take_S_r. rewrite lookup_drop. by replace (a + (b - a)) with b by lia.
Qed.
End swaps.

(** ** More on the order of [double] *)

Lemma leb_trans (x y z : double) :
  (x <=? y)%float = true → (y <=? z)%float = true → (x <=? z)%float = true.
Proof.
  intros (a & b & Ha & Hb & Hab)%leb_rank (b' & c & Hb' & Hc & Hbc)%leb_rank.
  assert (b' = b) as -> by congruence.
  apply leb_rank. exists a, c. split; [done|]. split; [done|]. rank_lia.
Qed.

Lemma ltb_trans (x y z : double) :
  (x <? y)%float = true → (y <? z)%float = true → (x <? z)%float = true.
Proof.
  intros (a & b & Ha & Hb & Hab)%ltb_rank (b' & c & Hb' & Hc & Hbc)%ltb_rank.
  rewrite Hb in Hb'. injection Hb' as <-.
  apply ltb_rank. exists a, c. split; [done|]. split; [done|]. rank_lia.
Qed.

Lemma ltb_leb (x y : double) : (x <? y)%float = true → (x <=? y)%float = true.
Proof.
  intros (a & b & Ha & Hb & Hab)%ltb_rank.
  apply leb_rank. exists a, b. split; [done|]. split; [done|]. rank_lia.
Qed.

Lemma not_ltb_leb (x y : double) :
  is_nan x = false → is_nan y = false → (x <? y)%float = false → (y <=? x)%float = true.
Proof.
  intros (a & Ha)%is_nan_false_rank (b & Hb)%is_nan_false_rank Hlt.
  pose proof (ltb_false_rank _ _ _ _ Ha Hb Hlt).
  apply leb_rank. exists b, a. done.
Qed.

Lemma leb_ltb_false (x y z : double) :
  (x <? y)%float = true → (y <=? z)%float = true → (z <=? x)%float = false.
Proof.
  intros (a & b & Ha & Hb & Hab)%ltb_rank (b' & c & Hb' & Hc & Hbc)%leb_rank.
  assert (b' = b) as -> by congruence.
  apply not_true_is_false. intros (c' & a' & Hc' & Ha' & Hca)%leb_rank.
  assert (c' = c) as -> by congruence. assert (a' = a) as -> by congruence. rank_lia.
Qed.

(** ** Sorting the pairs *)

Lemma insert_pair_Permutation v l : insert_pair v l ≡ₚ v :: l.
Proof.
  induction l as [|w l IH]; [done|]. cbn.
  destruct (w.1 <? v.1)%float; [|done]. rewrite IH. apply perm_swap.
Qed.

Lemma sort_pairs_Permutation l : sort_pairs l ≡ₚ l.
Proof.
  induction l as [|v l IH]; [done|]. cbn. by rewrite insert_pair_Permutation, IH.
Qed.

Lemma insert_pair_sorted v l :
  is_nan v.1 = false → Forall (λ w, is_nan w.1 = false) l →
  StronglySorted pair_le l → StronglySorted pair_le (insert_pair v l).
Proof.
  intros Hv Hl Hs. induction Hs as [|w l Hs IH Hw]; cbn.
  - by repeat constructor.
  - apply Forall_cons in Hl as [Hwn Hl].
    destruct (w.1 <? v.1)%float eqn:E.
    + constructor; [by apply IH|].
      rewrite insert_pair_Permutation. constructor; [by apply ltb_leb|done].
    + assert (pair_le v w) as Hvw by by apply not_ltb_leb.
      constructor; [by constructor|]. constructor; [done|].
      eapply Forall_impl; [exact Hw|]. intros x Hx. by eapply leb_trans.
Qed.

Lemma sort_pairs_sorted l :
  Forall (λ w, is_nan w.1 = false) l → StronglySorted pair_le (sort_pairs l).
Proof.
  induction 1 as [|v l Hv Hl IH]; cbn; [constructor|].
  apply insert_pair_sorted; [done| |done]. by rewrite sort_pairs_Permutation.
Qed.

Lemma filter_none {A} (P : A → Prop) `{!∀ x, Decision (P x)} (l : list A) :
  Forall (λ x, ¬ P x) l → filter P l = [].
Proof.
  induction 1 as [|x l Hx Hl IH]; [done|]. by rewrite filter_cons_False.
Qed.

Lemma filter_bool_Permutation {A} (b : A → bool) (l : list A) :
  filter (λ x, b x = true) l ++ filter (λ x, b x = false) l ≡ₚ l.
Proof.
  induction l as [|x l IH]; [done|].
  destruct (b x) eqn:E.
  - rewrite (filter_cons_True (λ x, b x = true)) by done.
    rewrite (filter_cons_False (λ x, b x = false)) by congruence.
    cbn. by rewrite IH.
  - rewrite (filter_cons_False (λ x, b x = true)) by congruence.
    rewrite (filter_cons_True (λ x, b x = false)) by done.
    rewrite <- Permutation_middle. by rewrite IH.
Qed.

(** In a sorted list the values that do not exceed a threshold come first. *)
Lemma filter_below_prefix thr sp :
  StronglySorted pair_le sp →
  filter (below thr) sp = take (length (filter (below thr) sp)) sp.
Proof.
  induction 1 as [|v sp Hs IH Hv]; [done|].
  destruct (decide (below thr v)) as [Hb|Hb].
  - rewrite filter_cons_True by done. cbn. by rewrite <- IH.
  - rewrite filter_cons_False by done.
    assert (filter (below thr) sp = []) as ->; [|done].
    apply filter_none. eapply Forall_impl; [exact Hv|]. intros w Hvw Hw.
    apply Hb. cbn in *. by eapply leb_trans.
Qed.

Lemma leb_refl (x : double) : is_nan x = false → (x <=? x)%float = true.
Proof.
  intros (a & Ha)%is_nan_false_rank. apply leb_rank. exists a, a.
  split; [done|]. split; [done|]. rank_lia.
Qed.

Lemma ltb_not_nan_r (x y : double) : (x <? y)%float = true → is_nan y = false.
Proof. intros (a & b & _ & Hb & _)%ltb_rank. apply is_nan_false_rank. eauto. Qed.

(** ** The candidates of a feature *)

Section candidates.
Context (L : CRand) (threshold_between : double → double → double).

Lemma best_boundaries_spec sp : ∀ k0 k thr,
  (k, thr) ∈ best_boundaries threshold_between k0 sp →
  ∃ n, k = (k0 + n)%nat ∧ (0 < n < length sp)%nat
    ∧ (separates threshold_between → StronglySorted pair_le sp → filter (below thr) sp = take n sp).
Proof.
  induction sp as [|v1 sp IH]; intros k0 k thr Hin; [by apply elem_of_nil in Hin|].
  destruct sp as [|v2 tl]; [by apply elem_of_nil in Hin|].
  cbn [best_boundaries] in Hin. apply elem_of_app in Hin as [Hin|Hin].
  - destruct (v1.1 <? v2.1)%float eqn:Elt; [|by apply elem_of_nil in Hin].
    apply list_elem_of_singleton in Hin. injection Hin as -> ->.
    exists 1%nat. split; [lia|]. split; [cbn; lia|].
    intros Hsep Hs. destruct (Hsep _ _ Elt) as [H1 H2].
    rewrite filter_cons_True by done. cbn [take]. f_equal.
    apply filter_none. apply StronglySorted_inv in Hs as [Hs _].
    apply StronglySorted_inv in Hs as [_ Hv2].
    constructor.
    + cbn. rewrite (leb_ltb_false _ _ _ H2); [done|].
      apply leb_refl. by eapply ltb_not_nan_r.
    + eapply Forall_impl; [exact Hv2|]. intros w Hw. cbn.
      by rewrite (leb_ltb_false _ _ _ H2 Hw).
  - destruct (IH _ _ _ Hin) as (n & -> & Hn & Hf).
    exists (S n). split; [lia|]. split; [cbn in *; lia|].
    intros Hsep Hs. apply StronglySorted_inv in Hs as [Hs Hv1].
    specialize (Hf Hsep Hs).
    assert (below thr v2) as Hv2.
    { assert (v2 ∈ filter (below thr) (v2 :: tl)) as Hel.
      { rewrite Hf. destruct n; [lia|]. cbn. apply list_elem_of_here. }
      by apply list_elem_of_filter in Hel as [? _]. }
    rewrite filter_cons_True.
    + cbn [take]. by rewrite Hf.
    + cbn. apply Forall_cons in Hv1 as [Hv12 _]. by eapply leb_trans.
Qed.

Lemma boundaries_spec st rs sp g k thr :
  (k, thr) ∈ (boundaries L threshold_between st rs sp g).1 →
  (k ≤ length sp)%nat
  ∧ (st = BestSplitter → (0 < k < length sp)%nat)
  ∧ (separates threshold_between → StronglySorted pair_le sp → filter (below thr) sp = take k sp).
Proof.
  destruct st; cbn [boundaries fst].
  - intros (n & -> & Hn & Hf)%best_boundaries_spec. cbn. split; [lia|]. split; [lia|done].
  - unfold random_boundaries.
    destruct (head sp) as [lo|]; [|by intros ?%elem_of_nil].
    destruct (last sp) as [hi|]; [|by intros ?%elem_of_nil].
    destruct (draw_threshold L lo.1 hi.1 rs g) as [[t|] g']; [|by intros ?%elem_of_nil].
    cbn [fst]. intros [= -> ->]%list_elem_of_singleton.
    split; [apply length_filter|]. split; [done|].
    intros _ Hs. by apply filter_below_prefix.
Qed.
End candidates.

(** ** The search of [node_split] *)

Section search_theory.
Context (L : CRand) (threshold_between : double → double → double).
Lemma pairs_snd s f l : (pairs s f l).*2 = l.
Proof.
  unfold pairs. rewrite <- list_fmap_compose. rewrite <- (list_fmap_id l) at 2.
  by apply list_fmap_ext.
Qed.

Lemma sorted_arrangement s f B : (sort_pairs (pairs s f B)).*2 ≡ₚ B.
Proof. by rewrite sort_pairs_Permutation, pairs_snd. Qed.

Lemma filter_pairs s f thr sp :
  Forall (λ v, v.1 = X s v.2 f) sp →
  filter (λ i, (X s i f <=? thr)%float = true) (sp.*2) = (filter (below thr) sp).*2.
Proof.
  induction 1 as [|v sp Hv Hsp IH]; [done|]. cbn [fmap list_fmap].
  destruct (decide (below thr v)) as [Hb|Hb].
  - rewrite (filter_cons_True (below thr)) by done.
    rewrite filter_cons_True by (by rewrite <- Hv). cbn. by rewrite IH.
  - rewrite (filter_cons_False (below thr)) by done.
    rewrite filter_cons_False by (by rewrite <- Hv). done.
Qed.

Lemma pairs_values s f B : Forall (λ v, v.1 = X s v.2 f) (sort_pairs (pairs s f B)).
Proof.
  rewrite sort_pairs_Permutation. unfold pairs. apply Forall_fmap, Forall_true. done.
Qed.

Lemma pairs_no_nan s f B :
  no_nan_features s → Forall (λ w, is_nan w.1 = false) (pairs s f B).
Proof. intros H. unfold pairs. apply Forall_fmap, Forall_true. intros i. apply H. Qed.

Lemma evaluate_valid st s impurity f B g cand c :
  B ≡ₚ node_samples s →
  cand ∈ (boundaries L threshold_between st (random_state s)
            (sort_pairs (pairs s f B)) g).1 →
  evaluate s impurity f (sort_pairs (pairs s f B)).*2 cand = Some c →
  valid_candidate threshold_between st s c.
Proof.
  intros HB Hin Hev. destruct cand as [k thr].
  apply boundaries_spec in Hin as (Hk & Hbest & Hf).
  unfold evaluate in Hev.
  destruct (acceptable s _ k) eqn:Hacc; [|done].
  destruct (crit_children_impurity _ _ _) as [il ir]. injection Hev as <-.
  exists ((sort_pairs (pairs s f B)).*2), k.
  rewrite length_fmap. split; [by rewrite sorted_arrangement|].
  split; [done|]. split; [done|]. split; [done|]. split; [done|].
  intros Hsep Hnan. unfold goes_left. cbn [feature threshold].
  rewrite filter_pairs by apply pairs_values.
  rewrite Hf; [by rewrite fmap_take|done|].
  by apply sort_pairs_sorted, pairs_no_nan.
Qed.

Lemma search_spec st s impurity : ∀ remaining budget σ,
  ss_samples L σ ≡ₚ node_samples s →
  Forall (valid_candidate threshold_between st s) (ss_found L σ) →
  let σ' := search L threshold_between st s impurity remaining budget σ in
  ss_samples L σ' ≡ₚ node_samples s ∧ Forall (valid_candidate threshold_between st s) (ss_found L σ').
Proof.
  induction remaining as [|remaining IH]; intros budget σ HB HQ; [done|].
  destruct budget as [|budget]; [done|]. cbn [search].
  destruct (rand_int L _ _ _ _) as [[j|] g]; [|done].
  destruct (ss_features L σ !! Z.to_nat j) as [f|]; [|done].
  destruct (is_constant _).
  - apply IH; cbn; [by rewrite sorted_arrangement|done].
  - destruct (boundaries _ _ _ _ _ _) as [cands g'] eqn:Eb.
    apply IH; cbn; [by rewrite sorted_arrangement|].
    apply Forall_app. split; [done|]. apply Forall_forall. intros c Hc.
    apply list_elem_of_omap in Hc as (cand & Hcand & Hev).
    eapply (evaluate_valid st s impurity f (ss_samples L σ) g); [done| |done].
    by rewrite Eb.
Qed.
(** The best-split search scans every feature of the unexamined region
    once, each in an arrangement of the node's samples, and accepts what
    [scan_candidates] lists for it. *)
Lemma search_best_scans s impurity : ∀ remaining budget σ,
  (remaining ≤ budget)%nat →
  (ss_n_constant L σ + remaining ≤ length (ss_features L σ))%nat →
  Z.of_nat (length (ss_features L σ)) ≤ INT_MAX →
  ss_samples L σ ≡ₚ node_samples s →
  ∃ scans : list (Z * list Z),
    scans.*1 ≡ₚ slice (ss_n_constant L σ) (ss_n_constant L σ + remaining) (ss_features L σ)
    ∧ Forall (λ fB, fB.2 ≡ₚ node_samples s) scans
    ∧ ss_found L (search L threshold_between BestSplitter s impurity remaining budget σ)
      = ss_found L σ
        ++ (scans ≫= λ fB, scan_candidates threshold_between s impurity fB.1 fB.2).
Proof.
  induction remaining as [|remaining IH]; intros budget σ Hbud Hlen Hmax HB.
  { exists []. split; [|split; [done|]].
    - unfold slice. by replace (ss_n_constant L σ + 0 - ss_n_constant L σ)%nat with 0%nat by lia.
    - cbn. by rewrite app_nil_r. }
  destruct budget as [|budget]; [lia|]. cbn [search].
  set (n_c := ss_n_constant L σ) in *. set (F := ss_features L σ) in *.
  destruct (rand_int_draw L (Z.of_nat n_c) (Z.of_nat (n_c + S remaining)) (random_state s)
              (ss_rng L σ)) as (j & g' & -> & Hj); [lia|lia|lia|].
  destruct (F !! Z.to_nat j) as [f|] eqn:Ef; [|apply lookup_ge_None in Ef; lia].
  set (B := ss_samples L σ) in *.
  assert (scan_candidates threshold_between s impurity f B
          = if is_constant (sort_pairs (pairs s f B)) then []
            else omap (evaluate s impurity f (sort_pairs (pairs s f B)).*2)
                   (best_boundaries threshold_between 0 (sort_pairs (pairs s f B))))
    as Hscan by done.
  destruct (is_constant (sort_pairs (pairs s f B))).
  - destruct (IH budget
      (mkSearch L (sort_pairs (pairs s f B)).*2 (list_swap (Z.to_nat j) n_c F) (S n_c)
         (ss_found L σ) g')) as (scans & Hfs & HBs & Hfound).
    + lia.
    + cbn. rewrite length_list_swap. lia.
    + cbn. by rewrite length_list_swap.
    + cbn. by rewrite sorted_arrangement.
    + cbn [ss_n_constant ss_features ss_found ss_samples] in *.
      exists ((f, B) :: scans). split; [|split; [by constructor|]].
      * cbn [fmap list_fmap fst]. rewrite Hfs.
        replace (S n_c + remaining)%nat with (n_c + S remaining)%nat by lia.
        rewrite <- (slice_list_swap_Permutation n_c (n_c + S remaining) (Z.to_nat j) n_c F)
          by lia.
        symmetry. rewrite (slice_cons n_c _ _ f); [done|lia|].
        apply list_swap_lookup_r; [lia|done].
      * rewrite Hfound. cbn [mbind list_bind fst snd]. by rewrite Hscan.
  - cbn [boundaries].
    replace (n_c + S remaining - 1)%nat with (n_c + remaining)%nat by lia.
    destruct (IH budget
      (mkSearch L (sort_pairs (pairs s f B)).*2
         (list_swap (Z.to_nat j) (n_c + remaining) F) n_c
         (ss_found L σ ++ omap (evaluate s impurity f (sort_pairs (pairs s f B)).*2)
                           (best_boundaries threshold_between 0 (sort_pairs (pairs s f B))))
         g')) as (scans & Hfs & HBs & Hfound).
    + lia.
    + cbn. rewrite length_list_swap. lia.
    + cbn. by rewrite length_list_swap.
    + cbn. by rewrite sorted_arrangement.
    + cbn [ss_n_constant ss_features ss_found ss_samples] in *.
      exists ((f, B) :: scans). split; [|split; [by constructor|]].
      * cbn [fmap list_fmap fst]. rewrite Hfs.
        rewrite <- (slice_list_swap_Permutation n_c (n_c + S remaining) (Z.to_nat j)
                      (n_c + remaining) F) by lia.
        replace (n_c + S remaining)%nat with (S (n_c + remaining)) by lia.
        rewrite (slice_snoc n_c (n_c + remaining) _ f); [|lia|].
        -- by rewrite Permutation_app_comm.
        -- apply list_swap_lookup_r; [lia|done].
      * rewrite Hfound. cbn [mbind list_bind fst snd]. rewrite Hscan. by rewrite <- app_assoc.
Qed.
End search_theory.

(** ** [node_split] *)

Lemma keep_max_improves init c : improves init c → keep_max init c = c.
Proof. unfold improves, keep_max. by intros ->. Qed.

Lemma keep_max_keeps init c : ¬ improves init c → keep_max init c = init.
Proof. unfold improves, keep_max. by destruct (improvement init <? improvement c)%float. Qed.

Lemma foldl_keep_max_cases found : ∀ init,
  let best := foldl keep_max init found in
  (Forall (λ c, ¬ improves init c) found ∧ best = init)
  ∨ (Exists (improves init) found ∧ best ∈ found).
Proof.
  induction found as [|c found IH]; intros init; cbn [foldl].
  - left. done.
  - destruct (improvement init <? improvement c)%float eqn:E';
      [assert (improves init c) as E by done
      |assert (¬ improves init c) as E by (unfold improves; congruence)].
    + rewrite keep_max_improves by done. right. split; [by left|].
      destruct (IH c) as [[_ ->]|[_ Hin]]; [left|by right].
    + rewrite keep_max_keeps by done.
      destruct (IH init) as [[Hall ->]|[Hex Hin]].
      * left. split; [|done]. by constructor.
      * right. split; [by right|by right].
Qed.

(** What is kept improves on the record the search started from. *)
Lemma foldl_keep_max_best found : ∀ init,
  let best := foldl keep_max init found in
  best = init ∨ (best ∈ found ∧ improves init best).
Proof.
  induction found as [|c found IH]; intros init; cbn [foldl]; [by left|].
  destruct (improvement init <? improvement c)%float eqn:E.
  - rewrite keep_max_improves by done. right.
    destruct (IH c) as [->|[Hin Himp]].
    + split; [by left|done].
    + split; [by right|]. unfold improves in *. by eapply ltb_trans.
  - rewrite keep_max_keeps by (unfold improves; congruence).
    destruct (IH init) as [->|[Hin Himp]]; [by left|right]. split; [by right|done].
Qed.

Lemma length_node_samples s :
  valid_range s →
  length (node_samples s) = (Z.to_nat (end_ s) - Z.to_nat (start s))%nat.
Proof. intros (H1 & H2 & H3). unfold node_samples. apply length_slice. lia. Qed.

Section node_split_theory.
Context (L : CRand) (threshold_between : double → double → double).

Lemma run_search_spec st s impurity ncf g :
  let σ := run_search L threshold_between st s impurity ncf g in
  ss_samples L σ ≡ₚ node_samples s ∧ Forall (valid_candidate threshold_between st s) (ss_found L σ).
Proof. apply search_spec; cbn; done. Qed.

(** The record that comes back is the initial one or an accepted candidate. *)
Lemma best_cases st s impurity ncf g :
  let σ := run_search L threshold_between st s impurity ncf g in
  let init := init_split SplitRecord_ctor (end_ s) in
  let best := foldl keep_max init (ss_found L σ) in
  (Forall (λ c, ¬ improves init c) (ss_found L σ) ∧ best = init)
  ∨ (Exists (improves init) (ss_found L σ) ∧ valid_candidate threshold_between st s best).
Proof.
  cbv zeta. destruct (foldl_keep_max_cases
    (ss_found L (run_search L threshold_between st s impurity ncf g))
    (init_split SplitRecord_ctor (end_ s))) as [H|[Hex Hin]]; [by left|right].
  split; [done|].
  destruct (run_search_spec st s impurity ncf g) as [_ Hall].
  rewrite Forall_forall in Hall. by apply Hall.
Qed.

Lemma pos_in_range st s impurity ncf g :
  valid_range s →
  let best := foldl keep_max (init_split SplitRecord_ctor (end_ s))
                (ss_found L (run_search L threshold_between st s impurity ncf g)) in
  start s ≤ pos best ≤ end_ s.
Proof.
  intros Hr. pose proof (length_node_samples s Hr) as Hlen.
  destruct Hr as (H1 & H2 & H3). cbv zeta.
  destruct (best_cases st s impurity ncf g) as [[_ ->]|[_ (A & k & HA & Hk & Hpos & _)]].
  - cbn. lia.
  - rewrite Hpos. apply Permutation_length in HA. lia.
Qed.

Lemma final_arrangement_Permutation s best B : final_arrangement s best B ≡ₚ B.
Proof.
  unfold final_arrangement. destruct (pos best <? end_ s); [|done].
  apply filter_bool_Permutation.
Qed.

Lemma node_split_unfold st s impurity ncf g :
  valid_range s →
  let σ := run_search L threshold_between st s impurity ncf g in
  let best := foldl keep_max (init_split SplitRecord_ctor (end_ s)) (ss_found L σ) in
  node_split L threshold_between st s impurity ncf g =
  inr (set_features (ss_features L σ)
         (set_samples (splice (Z.to_nat (start s))
                         (final_arrangement s best (ss_samples L σ)) (samples s)) s),
       best, Z.of_nat (ss_n_constant L σ), ss_rng L σ).
Proof.
  intros (H1 & H2 & H3). cbv zeta. unfold node_split.
  destruct (end_ s <=? start s) eqn:E; [apply Z.leb_le in E; lia|]. done.
Qed.

(** C2. Under a valid range [node_split] returns; the vector keeps its
    length and its content outside [start, end); the samples of the node
    after the call are a permutation of those before, and they are
    [samples[start:pos)] followed by [samples[pos:end)]. *)
Theorem node_split_partitions_in_place st s impurity ncf g :
  valid_range s →
  ∃ s' split n g',
    node_split L threshold_between st s impurity ncf g = inr (s', split, n, g')
    ∧ start s' = start s ∧ end_ s' = end_ s
    ∧ length (samples s') = length (samples s)
    ∧ take (Z.to_nat (start s)) (samples s') = take (Z.to_nat (start s)) (samples s)
    ∧ drop (Z.to_nat (end_ s)) (samples s') = drop (Z.to_nat (end_ s)) (samples s)
    ∧ start s ≤ pos split ≤ end_ s
    ∧ node_samples s' ≡ₚ node_samples s
    ∧ node_samples s' =
        slice (Z.to_nat (start s)) (Z.to_nat (pos split)) (samples s')
        ++ slice (Z.to_nat (pos split)) (Z.to_nat (end_ s)) (samples s').
Proof.
  intros Hr. eexists _, _, _, _. split; [by apply node_split_unfold|].
  pose proof (pos_in_range st s impurity ncf g Hr) as Hpos. cbv zeta in Hpos.
  pose proof (length_node_samples s Hr) as Hlen.
  destruct (run_search_spec st s impurity ncf g) as [HB _].
  set (σ := run_search L threshold_between st s impurity ncf g) in *.
  set (best := foldl keep_max _ _) in *.
  set (A := final_arrangement s best (ss_samples L σ)).
  assert (A ≡ₚ node_samples s) as HA by (subst A; by rewrite final_arrangement_Permutation).
  assert (length A = (Z.to_nat (end_ s) - Z.to_nat (start s))%nat) as HlA
    by (by rewrite (Permutation_length HA)).
  destruct Hr as (H1 & H2 & H3).
  assert (Z.to_nat (end_ s) = (Z.to_nat (start s) + length A)%nat) as Hb by lia.
  cbn [start end_ samples set_features set_samples].
  split; [done|]. split; [done|].
  split; [apply length_splice; lia|].
  split; [apply take_splice; lia|].
  split; [rewrite Hb; apply drop_splice; lia|].
  split; [done|].
  assert (node_samples (set_features (ss_features L σ)
            (set_samples (splice (Z.to_nat (start s)) A (samples s)) s)) = A) as HnA.
  { unfold node_samples. cbn [start end_ samples set_features set_samples].
    rewrite Hb. rewrite (slice_splice_left _ (length A)) by lia. by rewrite take_ge. }
  split; [by rewrite HnA|].
  unfold node_samples. cbn [start end_ samples set_features set_samples].
  apply slice_split; lia.
Qed.



(** The candidates of the best-split search over all the features that are
    not skipped, when every one of them is drawn. *)
Lemma run_search_best_scans s impurity ncf g :
  0 ≤ ncf ≤ Z.of_nat (length (features s)) →
  Z.of_nat (length (features s)) ≤ INT_MAX →
  Z.of_nat (length (features s)) - ncf ≤ max_features s →
  ∃ scans : list (Z * list Z),
    scans.*1 ≡ₚ drop (Z.to_nat ncf) (features s)
    ∧ Forall (λ fB, fB.2 ≡ₚ node_samples s) scans
    ∧ ss_found L (run_search L threshold_between BestSplitter s impurity ncf g)
      = scans ≫= λ fB, scan_candidates threshold_between s impurity fB.1 fB.2.
Proof.
  intros Hncf Hmax Hall. unfold run_search.
  destruct (search_best_scans L threshold_between s impurity
              (length (features s) - Z.to_nat ncf) (Z.to_nat (max_features s))
              (mkSearch L (node_samples s) (features s) (Z.to_nat ncf) [] g))
    as (scans & Hfs & HBs & Hfound); cbn [ss_n_constant ss_features ss_samples]; try done.
  - lia.
  - lia.
  - cbn [ss_n_constant ss_features ss_samples ss_found] in *.
    exists scans. split; [|done]. rewrite Hfs. unfold slice.
    by rewrite take_ge by (rewrite length_drop; lia).
Qed.

Lemma node_split_pos_range_at st s impurity ncf g :
  valid_range s →
  ∃ s' split n g',
    node_split L threshold_between st s impurity ncf g = inr (s', split, n, g')
    ∧ start s ≤ pos split ≤ end_ s
    ∧ (pos split < end_ s →
       valid_candidate threshold_between st s split
       ∧ (0 <? improvement split)%float = true)
    ∧ (end_ s ≤ pos split → leaf_after_split (end_ s) split = true)
    ∧ (st = BestSplitter →
       0 ≤ ncf ≤ Z.of_nat (length (features s)) →
       Z.of_nat (length (features s)) ≤ INT_MAX →
       Z.of_nat (length (features s)) - ncf ≤ max_features s →
       ∃ scans : list (Z * list Z),
         scans.*1 ≡ₚ drop (Z.to_nat ncf) (features s)
         ∧ Forall (λ fB, fB.2 ≡ₚ node_samples s) scans
         ∧ (end_ s ≤ pos split ↔
            Forall (λ c, (0 <? improvement c)%float = false)
              (scans ≫= λ fB, scan_candidates threshold_between s impurity fB.1 fB.2))).
Proof.
  intros Hr. eexists _, _, _, _. split; [by apply node_split_unfold|].
  split; [by apply pos_in_range|].
  pose proof (length_node_samples s Hr) as Hlen.
  pose proof (best_cases st s impurity ncf g) as Hcases. cbv zeta in Hcases.
  pose proof (foldl_keep_max_best
                (ss_found L (run_search L threshold_between st s impurity ncf g))
                (init_split SplitRecord_ctor (end_ s))) as Hbest. cbv zeta in Hbest.
  pose proof (run_search_spec st s impurity ncf g) as [_ Hvalid]. cbv zeta in Hvalid.
  destruct Hr as (H1 & H2 & H3).
  split; [|split].
  - intros Hlt. destruct Hbest as [Hinit|[Hin Himp]]; [rewrite Hinit in Hlt; cbn in Hlt; lia|].
    split; [|exact Himp]. rewrite Forall_forall in Hvalid. by apply Hvalid.
  - intros Hge. unfold leaf_after_split. apply orb_true_iff. left. by apply Z.leb_le.
  - intros -> Hncf Hmax Hall.
    destruct (run_search_best_scans s impurity ncf g Hncf Hmax Hall)
      as (scans & Hfs & HBs & Hfound).
    exists scans. split; [done|]. split; [done|]. rewrite <- Hfound.
    destruct Hcases as [[Hnone Hinit]|[Hex (A & k & HA & Hk & Hpos & Hacc & Hin & _)]].
    + split; [intros _|rewrite Hinit; cbn; lia].
      eapply Forall_impl; [exact Hnone|]. intros c Hc. unfold improves in Hc. cbn in Hc.
      by destruct (0 <? improvement c)%float.
    + specialize (Hin eq_refl). apply Permutation_length in HA.
      split; [lia|]. intros Hnone. exfalso.
      apply Exists_exists in Hex as (c & Hc & Himp). rewrite Forall_forall in Hnone.
      specialize (Hnone c Hc). unfold improves in Himp. cbn in Himp. congruence.
Qed.

(** C6, amended. After a [node_reset] of a non-empty range [start, end) of
    the sample vector, [node_split] returns a record with [pos] in
    [start, end]. When [pos < end] the record is an accepted candidate
    whose improvement is above 0; when [pos >= end] the leaf policy makes
    the node a leaf. For [BestSplitter], when every feature that is not
    skipped as constant is drawn, each of them is scanned once in an
    arrangement of the node's samples, and [pos >= end] holds exactly when
    no boundary between two adjacent distinct values of any of them is an
    accepted candidate with an improvement above 0. *)
Theorem node_split_pos_range st s0 start0 end0 impurity ncf g :
  0 ≤ start0 → start0 < end0 → end0 ≤ Z.of_nat (length (samples s0)) →
  let s := (node_reset s0 start0 end0).1 in
  ∃ s' split n g',
    node_split L threshold_between st s impurity ncf g = inr (s', split, n, g')
    ∧ start0 ≤ pos split ≤ end0
    ∧ (pos split < end0 →
       valid_candidate threshold_between st s split
       ∧ (0 <? improvement split)%float = true)
    ∧ (end0 ≤ pos split → leaf_after_split end0 split = true)
    ∧ (st = BestSplitter →
       0 ≤ ncf ≤ Z.of_nat (length (features s)) →
       Z.of_nat (length (features s)) ≤ INT_MAX →
       Z.of_nat (length (features s)) - ncf ≤ max_features s →
       ∃ scans : list (Z * list Z),
         scans.*1 ≡ₚ drop (Z.to_nat ncf) (features s)
         ∧ Forall (λ fB, fB.2 ≡ₚ node_samples s) scans
         ∧ (end0 ≤ pos split ↔
            Forall (λ c, (0 <? improvement c)%float = false)
              (scans ≫= λ fB, scan_candidates threshold_between s impurity fB.1 fB.2))).
Proof.
  intros H1 H2 H3.
  apply (node_split_pos_range_at st (node_reset s0 start0 end0).1 impurity ncf g).
  unfold valid_range. cbn. done.
Qed.
End node_split_theory.

(** ** Concrete inputs *)

Lemma separates_lower_value : separates lower_value.
Proof.
  intros lo hi Hlt. split; [|done]. apply leb_refl.
  apply ltb_rank in Hlt as (a & _ & Ha & _). apply is_nan_false_rank. eauto.
Qed.

Lemma scenario_no_nan : no_nan_features scenario.
Proof.
  intros i f. cbn. unfold column.
  destruct (Z.to_nat i) as [|[|[|[|n]]]]; reflexivity.
Qed.

Lemma scenario_valid_range : valid_range scenario.
Proof. unfold valid_range. cbn. lia. Qed.

Lemma node_split_partitions_in_place_witness :
  ∃ s' split n g',
    node_split iso_c lower_value BestSplitter scenario 0.25 0 0 = inr (s', split, n, g')
    ∧ start s' = start scenario ∧ end_ s' = end_ scenario
    ∧ length (samples s') = length (samples scenario)
    ∧ take (Z.to_nat (start scenario)) (samples s')
      = take (Z.to_nat (start scenario)) (samples scenario)
    ∧ drop (Z.to_nat (end_ scenario)) (samples s')
      = drop (Z.to_nat (end_ scenario)) (samples scenario)
    ∧ start scenario ≤ pos split ≤ end_ scenario
    ∧ node_samples s' ≡ₚ node_samples scenario
    ∧ node_samples s' =
        slice (Z.to_nat (start scenario)) (Z.to_nat (pos split)) (samples s')
        ++ slice (Z.to_nat (pos split)) (Z.to_nat (end_ scenario)) (samples s').
Proof.
  apply (node_split_partitions_in_place iso_c lower_value BestSplitter scenario 0.25 0 0).
  unfold valid_range. cbn. lia.
Defined.


Lemma node_split_pos_range_witness :
  let s := (node_reset scenario 0 4).1 in
  ∃ s' split n g',
    node_split iso_c lower_value BestSplitter s 0.25 0 0 = inr (s', split, n, g')
    ∧ 0 ≤ pos split ≤ 4
    ∧ (pos split < 4 →
       valid_candidate lower_value BestSplitter s split
       ∧ (0 <? improvement split)%float = true)
    ∧ (4 ≤ pos split → leaf_after_split 4 split = true)
    ∧ (BestSplitter = BestSplitter →
       0 ≤ 0 ≤ Z.of_nat (length (features s)) →
       Z.of_nat (length (features s)) ≤ INT_MAX →
       Z.of_nat (length (features s)) - 0 ≤ max_features s →
       ∃ scans : list (Z * list Z),
         scans.*1 ≡ₚ drop (Z.to_nat 0) (features s)
         ∧ Forall (λ fB, fB.2 ≡ₚ node_samples s) scans
         ∧ (4 ≤ pos split ↔
            Forall (λ c, (0 <? improvement c)%float = false)
              (scans ≫= λ fB, scan_candidates lower_value s 0.25 fB.1 fB.2))).
Proof.
  apply (node_split_pos_range iso_c lower_value BestSplitter scenario 0 4 0.25 0 0).
  - lia.
  - lia.
  - cbn. lia.
Defined.

(** C6, as stated, fails: with [min_samples_leaf = 2] on the values
    [1, 2, 3, 10], [RandomSplitter] tries the single threshold 6, whose
    right side holds one sample, accepts nothing and returns [pos = end],
    although the boundary between the values 2 and 3 is an accepted split
    with improvement [0.25]. *)
Lemma random_splitter_misses_improving_split :
  let '(s, impurity) := node_reset two_per_leaf_scenario 0 4 in
  let sp := sort_pairs (pairs s 0 (node_samples s)) in
  (boundaries iso_c lower_value RandomSplitter (random_state s) sp 0).1 = [(3%nat, 6%float)]
  ∧ evaluate s impurity 0 sp.*2 (3%nat, 6%float) = None
  ∧ outcome (node_split iso_c lower_value RandomSplitter s impurity 0 0)
    = inr (set_samples [2; 3; 0; 1] s, mkSplitRecord 0 0 4 0 0 0, 0)
  ∧ pos (mkSplitRecord 0 0 4 0 0 0) = end_ s
  ∧ scan_candidates lower_value s impurity 0 (node_samples s)
    = [mkSplitRecord 0 2 2 0.25 0 0]
  ∧ (0 <? improvement (mkSplitRecord 0 2 2 0.25 0 0))%float = true.
Proof. repeat split; vm_compute; reflexivity. Qed.

(** The scenario of the spec: the root splits between the values 2 and 3,
    at [pos = 2], with the samples of values 1 and 2 on the left. *)
Example scenario_split :
  outcome (node_split iso_c lower_value BestSplitter scenario 0.25 0 0)
  = inr (set_samples [2; 3; 0; 1] scenario, mkSplitRecord 0 2 2 0.25 0 0, 0).
Proof. reflexivity. Qed.

(** The second scenario of the spec: the feature is found constant, no
    candidate is accepted, [pos] is [end] and the node is a leaf although it
    holds enough samples to be split. *)
Example constant_scenario_split :
  let '(s, impurity) := node_reset constant_scenario 0 3 in
  leaf_before_split scenario_builder 0 3 0 impurity = false
  ∧ outcome (node_split iso_c lower_value BestSplitter s impurity 0 0)
    = inr (constant_scenario, mkSplitRecord 0 0 3 0 0 0, 1)
  ∧ leaf_after_split 3 (mkSplitRecord 0 0 3 0 0 0) = true.
Proof. repeat split; reflexivity. Qed.

(** The first scenario, built depth-first: three turns empty the stack and
    leave a root split at [pos = 2] with two leaves of two samples each. *)
Example scenario_build :
  match build iso_c lower_value 3 scenario_builder BestSplitter scenario 0 with
  | inr σ => Some (bs_stack iso_c σ, samples (bs_splitter iso_c σ), bs_tree iso_c σ)
  | inl _ => None
  end
  = Some ([], [2; 3; 0; 1],
          [ mkNode TREE_NONE false false 0 2 0.25 4 4 1 2;
            mkNode 0 true true 0 0 0 2 2 TREE_NONE TREE_NONE;
            mkNode 0 false true 0 0 0 2 2 TREE_NONE TREE_NONE ]).
Proof. vm_compute. reflexivity. Qed.

(** ** Reproducibility *)

Section reproducible.
Context (L : CRand).

Lemma rand_int_entry (low high random_state : Z) (g1 g2 : rng L) :
  rand_int L low high random_state g1 = rand_int L low high random_state g2.
Proof. reflexivity. Qed.

Lemma rand_double_entry (low high random_state : Z) (g1 g2 : rng L) :
  rand_double L low high random_state g1 = rand_double L low high random_state g2.
Proof. reflexivity. Qed.

(** The search does not depend on the generator it starts from, only its
    last component can (when nothing was drawn). *)
Lemma search_entry tb st s impurity remaining budget sam fea n_c found (g1 g2 : rng L) :
  let σ1 := search L tb st s impurity remaining budget (mkSearch L sam fea n_c found g1) in
  let σ2 := search L tb st s impurity remaining budget (mkSearch L sam fea n_c found g2) in
  ss_samples L σ1 = ss_samples L σ2 ∧ ss_features L σ1 = ss_features L σ2
  ∧ ss_n_constant L σ1 = ss_n_constant L σ2 ∧ ss_found L σ1 = ss_found L σ2.
Proof.
  destruct remaining as [|remaining]; [done|]. destruct budget as [|budget]; [done|].
  cbn [search ss_samples ss_features ss_n_constant ss_found ss_rng].
  rewrite (rand_int_entry _ _ _ g1 g2).
  destruct (rand_int L _ _ _ g2) as [[j|] g]; [|done].
  destruct (fea !! Z.to_nat j); done.
Qed.

Lemma node_split_entry tb st s impurity ncf (g1 g2 : rng L) :
  outcome (node_split L tb st s impurity ncf g1)
  = outcome (node_split L tb st s impurity ncf g2).
Proof.
  unfold node_split. destruct (end_ s <=? start s); [done|]. unfold run_search.
  destruct (search_entry tb st s impurity (length (features s) - Z.to_nat ncf)
              (Z.to_nat (max_features s)) (node_samples s) (features s) (Z.to_nat ncf) []
              g1 g2) as (H1 & H2 & H3 & H4).
  cbn [outcome]. by rewrite H1, H2, H3, H4.
Qed.

Lemma build_loop_entry tb fuel b st : ∀ s stack t (g1 g2 : rng L),
  built L (build_loop L tb fuel b st (mkBuild L s stack t g1))
  = built L (build_loop L tb fuel b st (mkBuild L s stack t g2)).
Proof.
  induction fuel as [|fuel IH]; intros s stack t g1 g2; [done|].
  cbn [build_loop bs_stack]. destruct stack as [|item stack]; [done|].
  unfold build_step. cbn [bs_splitter bs_tree bs_rng].
  destruct (node_reset s (N_start item) (N_end item)) as [s0 impurity].
  destruct (leaf_before_split b _ _ _ _).
  - destruct (add_node _ _ _ _ _ _ _ _ _) as [t' node_id]. apply IH.
  - pose proof (node_split_entry tb st s0 impurity (N_n_constant_features item) g1 g2) as H.
    destruct (node_split L tb st s0 impurity _ g1) as [e1|[[[s1 split1] n1] g1']],
             (node_split L tb st s0 impurity _ g2) as [e2|[[[s2 split2] n2] g2']];
      cbn [outcome] in H; try discriminate.
    + by injection H as ->.
    + injection H as -> -> ->.
      destruct (add_node _ _ _ _ _ _ _ _ _) as [t' node_id]. apply IH.
Qed.

(** C7. Whatever state the global generator is in, a call of [rand_int]
    (and of [rand_double]) with given arguments returns the same value and
    leaves the same generator; for in-range [low < high] the value of
    [rand_int] is defined; a [node_split] that draws its features and
    thresholds through them returns the same splitter, split and
    constant-feature count; and a depth-first build returns the same tree. *)
Theorem rand_calls_deterministic (low high random_state : Z) (g1 g2 : rng L) :
  in_int low = true → in_int high = true → low < high →
  rand_int L low high random_state g1 = rand_int L low high random_state g2
  ∧ rand_double L low high random_state g1 = rand_double L low high random_state g2
  ∧ is_Some (rand_int L low high random_state g1).1
  ∧ (∀ tb st s impurity ncf,
      outcome (node_split L tb st s impurity ncf g1)
      = outcome (node_split L tb st s impurity ncf g2))
  ∧ (∀ tb fuel b st s,
      built L (build L tb fuel b st s g1) = built L (build L tb fuel b st s g2)).
Proof.
  intros Hl Hh Hlt. split; [reflexivity|]. split; [reflexivity|].
  split; [|split; [intros; apply node_split_entry|intros; apply build_loop_entry]].
  unfold rand_int. destruct (rand L (srand L (to_unsigned random_state))) as [r g].
  cbn [fst]. pose proof (int_sub_nonzero low high Hl Hh Hlt) as Hnz.
  destruct (int_sub high low =? 0) eqn:E; [apply Z.eqb_eq in E; contradiction|].
  eexists; reflexivity.
Qed.
End reproducible.

Lemma rand_calls_deterministic_witness :
  rand_int iso_c 3 10 42 0 = rand_int iso_c 3 10 42 12345
  ∧ rand_double iso_c 3 10 42 0 = rand_double iso_c 3 10 42 12345
  ∧ is_Some (rand_int iso_c 3 10 42 0).1
  ∧ (∀ tb st s impurity ncf,
      outcome (node_split iso_c tb st s impurity ncf 0)
      = outcome (node_split iso_c tb st s impurity ncf 12345))
  ∧ (∀ tb fuel b st s,
      built iso_c (build iso_c tb fuel b st s 0)
      = built iso_c (build iso_c tb fuel b st s 12345)).
Proof.
  apply (rand_calls_deterministic iso_c 3 10 42 0 12345); [reflexivity|reflexivity|lia].
Defined.

(** * Further properties of the code in splitter.h and treebuilder.h *)

(** ** [rand_int]: range, undefined case, reversed bounds *)

Section rand_int_properties.
Context (L : CRand).

Lemma first_draw_range (random_state : Z) :
  0 ≤ (rand L (srand L (to_unsigned random_state))).1 ≤ 2 ^ 31 - 1.
Proof.
  pose proof (rand_range L (srand L (to_unsigned random_state))) as H.
  pose proof (RAND_MAX_range L) as HM. unfold INT_MAX in HM. lia.
Qed.

(** X1. For [int] bounds with [low < high], [rand_int] returns a value, and
    that value lies in [[low, high)], whatever the seed, the generator state
    at entry and the library's generator (also when [high - low] does not fit
    an [int] and wraps). *)
Theorem rand_int_in_range (low high random_state : Z) (g : rng L) :
  in_int low = true → in_int high = true → low < high →
  ∃ v, (rand_int L low high random_state g).1 = Some v ∧ low ≤ v < high.
Proof.
  intros Hl%in_int_bounds Hh%in_int_bounds Hlt.
  pose proof (first_draw_range random_state) as Hr.
  unfold rand_int. destruct (rand L (srand L (to_unsigned random_state))) as [r g'].
  cbn [fst] in *. unfold int_sub, int_add.
  destruct (Z_le_gt_dec (high - low) (2 ^ 31 - 1)) as [Hs|Hb].
  - rewrite (wrap_int_small (high - low)) by lia.
    destruct (high - low =? 0) eqn:E; [apply Z.eqb_eq in E; lia|].
    pose proof (Z.rem_bound_pos r (high - low)) as Hrem.
    eexists. split; [reflexivity|]. rewrite wrap_int_small; lia.
  - rewrite (wrap_int_above (high - low)) by lia.
    destruct (high - low - 2 ^ 32 =? 0) eqn:E; [apply Z.eqb_eq in E; lia|].
    pose proof (Z.rem_bound_pos r (2 ^ 32 - (high - low))) as Hrem.
    replace (high - low - 2 ^ 32) with (- (2 ^ 32 - (high - low))) by lia.
    rewrite Z.rem_opp_r by lia.
    eexists. split; [reflexivity|]. rewrite wrap_int_small; lia.
Qed.

(** X2. For [int] bounds, [rand_int] has no defined result (a remainder by
    zero) exactly when [low = high]; the guard against it is left to the
    caller. *)
Theorem rand_int_undefined_iff (low high random_state : Z) (g : rng L) :
  in_int low = true → in_int high = true →
  (rand_int L low high random_state g).1 = None ↔ low = high.
Proof.
  intros Hl%in_int_bounds Hh%in_int_bounds.
  unfold rand_int. destruct (rand L (srand L (to_unsigned random_state))) as [r g'].
  cbn [fst]. unfold int_sub.
  destruct (wrap_int (high - low) =? 0) eqn:E.
  - apply Z.eqb_eq in E. split; [intros _|done].
    destruct (Z_le_gt_dec (high - low) (2 ^ 31 - 1));
      [destruct (Z_le_gt_dec (- 2 ^ 31) (high - low))|].
    + rewrite wrap_int_small in E by lia. lia.
    + rewrite wrap_int_below in E by lia. lia.
    + rewrite wrap_int_above in E by lia. lia.
  - apply Z.eqb_neq in E. split; [done|]. intros ->. rewrite Z.sub_diag in E.
    by contradict E.
Qed.

(** X3. With the bounds the wrong way round ([high < low]) [rand_int] does
    not fail and does not return a value between them: [%] truncates, the
    remainder has the sign of the draw, and the result lies in
    [[low, low + (low - high))], at or above the larger bound (as long as
    neither the subtraction nor the addition overflows). *)
Theorem rand_int_reversed_bounds (low high random_state : Z) (g : rng L) :
  in_int low = true → in_int high = true → high < low →
  low - high ≤ 2 ^ 31 → 2 * low - high - 1 ≤ INT_MAX →
  ∃ v, (rand_int L low high random_state g).1 = Some v ∧ low ≤ v < low + (low - high).
Proof.
  intros Hl%in_int_bounds Hh%in_int_bounds Hlt Hd Ho. unfold INT_MAX in Ho.
  pose proof (first_draw_range random_state) as Hr.
  unfold rand_int. destruct (rand L (srand L (to_unsigned random_state))) as [r g'].
  cbn [fst] in *. unfold int_sub, int_add.
  rewrite (wrap_int_small (high - low)) by lia.
  destruct (high - low =? 0) eqn:E; [apply Z.eqb_eq in E; lia|].
  pose proof (Z.rem_bound_pos r (low - high)) as Hrem.
  replace (high - low) with (- (low - high)) by lia. rewrite Z.rem_opp_r by lia.
  eexists. split; [reflexivity|]. rewrite wrap_int_small; lia.
Qed.

(** X4. The value is never more than [RAND_MAX] above [low]: on a range
    wider than [RAND_MAX + 1] the upper part of [[low, high)] is never
    returned. *)
Theorem rand_int_span_limited (low high random_state : Z) (g : rng L) :
  in_int low = true → in_int high = true → low < high → high - low ≤ INT_MAX →
  ∃ v, (rand_int L low high random_state g).1 = Some v ∧ low ≤ v ≤ low + RAND_MAX L.
Proof.
  intros Hl%in_int_bounds Hh%in_int_bounds Hlt Hd. unfold INT_MAX in Hd.
  pose proof (first_draw_range random_state) as Hr.
  pose proof (rand_range L (srand L (to_unsigned random_state))) as HR.
  unfold rand_int. destruct (rand L (srand L (to_unsigned random_state))) as [r g'].
  cbn [fst] in *. unfold int_sub, int_add.
  rewrite (wrap_int_small (high - low)) by lia.
  destruct (high - low =? 0) eqn:E; [apply Z.eqb_eq in E; lia|].
  rewrite Z.rem_mod_nonneg by lia.
  pose proof (Z.mod_pos_bound r (high - low)).
  pose proof (Z.mod_le r (high - low)).
  eexists. split; [reflexivity|]. rewrite wrap_int_small; lia.
Qed.

(** X5. Because [rand_int] re-seeds the generator on every call, a seed
    fixes one draw [r] for all calls: every call with that seed and with
    [int] bounds [low < high] whose difference fits an [int] returns
    [low + r mod (high - low)], whatever the generator state at entry and
    however many calls were made before. *)
Theorem rand_int_one_draw_per_seed (random_state : Z) :
  ∃ r, 0 ≤ r ≤ RAND_MAX L ∧
    ∀ low high (g : rng L),
      in_int low = true → in_int high = true → low < high → high - low ≤ INT_MAX →
      (rand_int L low high random_state g).1 = Some (low + r mod (high - low)).
Proof.
  exists (rand L (srand L (to_unsigned random_state))).1.
  split; [apply rand_range|].
  intros low high g Hl%in_int_bounds Hh%in_int_bounds Hlt Hd. unfold INT_MAX in Hd.
  pose proof (first_draw_range random_state) as Hr.
  unfold rand_int. destruct (rand L (srand L (to_unsigned random_state))) as [r g'].
  cbn [fst] in *. unfold int_sub, int_add.
  rewrite (wrap_int_small (high - low)) by lia.
  destruct (high - low =? 0) eqn:E; [apply Z.eqb_eq in E; lia|].
  rewrite Z.rem_mod_nonneg by lia.
  pose proof (Z.mod_pos_bound r (high - low)).
  rewrite wrap_int_small; [done|lia].
Qed.

End rand_int_properties.

Lemma rand_int_in_range_witness :
  ∃ v, (rand_int iso_c 3 10 42 0).1 = Some v ∧ 3 ≤ v < 10.
Proof.
  apply (rand_int_in_range iso_c 3 10 42 0); [reflexivity|reflexivity|lia].
Defined.

Lemma rand_int_undefined_iff_witness :
  (rand_int iso_c 5 5 42 0).1 = None ↔ 5 = 5.
Proof.
  apply (rand_int_undefined_iff iso_c 5 5 42 0); reflexivity.
Defined.

Lemma rand_int_reversed_bounds_witness :
  ∃ v, (rand_int iso_c 10 3 42 0).1 = Some v ∧ 10 ≤ v < 10 + (10 - 3).
Proof.
  apply (rand_int_reversed_bounds iso_c 10 3 42 0);
    [reflexivity|reflexivity|lia|lia|unfold INT_MAX; lia].
Defined.

Lemma rand_int_span_limited_witness :
  ∃ v, (rand_int iso_c 0 100000 42 0).1 = Some v ∧ 0 ≤ v ≤ 0 + RAND_MAX iso_c.
Proof.
  apply (rand_int_span_limited iso_c 0 100000 42 0);
    [reflexivity|reflexivity|lia|unfold INT_MAX; lia].
Defined.

(** ** [operator<] on frontier records *)

Lemma is_nan_true_rank (d : double) : is_nan d = true → Frank d = None.
Proof.
  intros H. destruct (Frank d) as [a|] eqn:E; [|done].
  assert (is_nan d = false) by (apply is_nan_false_rank; eauto). congruence.
Qed.

(** X6. [operator<] is a strict partial order on all frontier records, NaN
    improvements included: irreflexive, asymmetric and transitive. *)
Theorem operator_lt_strict_order :
  (∀ p, operator_lt p p = false)
  ∧ (∀ p q, operator_lt p q = true → operator_lt q p = false)
  ∧ (∀ p q r, operator_lt p q = true → operator_lt q r = true → operator_lt p r = true).
Proof.
  split; [|split; [apply operator_lt_asym|apply operator_lt_trans]].
  intros p. destruct (operator_lt p p) eqn:E; [|done].
  by rewrite (operator_lt_asym _ _ E) in E.
Qed.

(** X7. On records whose improvements are not NaN, exactly one of
    [p < q], [q < p] and equal improvements holds: two records are left
    unordered by [operator<] only when their improvements are equal. *)
Theorem operator_lt_trichotomy (p q : P) :
  is_nan (_improvement p) = false → is_nan (_improvement q) = false →
  let lt := operator_lt p q in
  let gt := operator_lt q p in
  let eq := (_improvement p =? _improvement q)%float in
  (lt = true ∧ gt = false ∧ eq = false)
  ∨ (lt = false ∧ gt = true ∧ eq = false)
  ∨ (lt = false ∧ gt = false ∧ eq = true).
Proof.
  intros (a & Ha)%is_nan_false_rank (b & Hb)%is_nan_false_rank. cbv zeta.
  unfold operator_lt.
  destruct (rank_compare_spec a b) as [->|Hab|Hba].
  - right. right. split; [|split].
    + apply not_true_is_false. intros (x & y & Hx & Hy & Hxy)%ltb_rank.
      assert (x = b) as -> by congruence. assert (y = b) as -> by congruence. rank_lia.
    + apply not_true_is_false. intros (x & y & Hx & Hy & Hxy)%ltb_rank.
      assert (x = b) as -> by congruence. assert (y = b) as -> by congruence. rank_lia.
    + apply eqb_rank. eauto.
  - left. split; [|split].
    + apply ltb_rank. eauto 6.
    + apply not_true_is_false. intros (x & y & Hx & Hy & Hxy)%ltb_rank.
      assert (x = b) as -> by congruence. assert (y = a) as -> by congruence. rank_lia.
    + apply not_true_is_false. intros (x & Hx & Hy)%eqb_rank.
      assert (x = a) as -> by congruence. assert (a = b) as -> by congruence. rank_lia.
  - right. left. split; [|split].
    + apply not_true_is_false. intros (x & y & Hx & Hy & Hxy)%ltb_rank.
      assert (x = a) as -> by congruence. assert (y = b) as -> by congruence. rank_lia.
    + apply ltb_rank. eauto 6.
    + apply not_true_is_false. intros (x & Hx & Hy)%eqb_rank.
      assert (x = a) as -> by congruence. assert (a = b) as -> by congruence. rank_lia.
Qed.

Lemma operator_lt_trichotomy_witness :
  let lt := operator_lt frontier_low frontier_high in
  let gt := operator_lt frontier_high frontier_low in
  let eq := (_improvement frontier_low =? _improvement frontier_high)%float in
  (lt = true ∧ gt = false ∧ eq = false)
  ∨ (lt = false ∧ gt = true ∧ eq = false)
  ∨ (lt = false ∧ gt = false ∧ eq = true).
Proof.
  apply (operator_lt_trichotomy frontier_low frontier_high); reflexivity.
Defined.

(** X8. A record whose improvement is NaN is unordered with every record:
    [operator<] is false in both directions, so the frontier treats it as
    equivalent to records of any improvement. *)
Theorem operator_lt_nan_incomparable (p q : P) :
  is_nan (_improvement p) = true →
  operator_lt p q = false ∧ operator_lt q p = false.
Proof.
  intros Hp%is_nan_true_rank. unfold operator_lt.
  split; apply not_true_is_false; intros (x & y & Hx & Hy & _)%ltb_rank; congruence.
Qed.

Lemma operator_lt_nan_incomparable_witness :
  operator_lt (mkP 3 0 2 1 1 false 0.5 0 0 nan) frontier_high = false
  ∧ operator_lt frontier_high (mkP 3 0 2 1 1 false 0.5 0 0 nan) = false.
Proof.
  apply (operator_lt_nan_incomparable (mkP 3 0 2 1 1 false 0.5 0 0 nan) frontier_high).
  reflexivity.
Defined.

(** ** [_add_to_frontier] on any store *)

(** X9. For every record, every store and every address: when the address
    holds a frontier the call returns the store as it was (the record is
    pushed on the parameter's own copy, which is destroyed at return), and
    no temporary object is left behind. *)
Theorem add_to_frontier_frame (p : P) (frontier : nat) (σ : store) :
  _add_to_frontier p frontier σ
  = match σ !! frontier with Some _ => Some σ | None => None end.
Proof.
  destruct (σ !! frontier) as [pq|] eqn:E.
  - by apply (_add_to_frontier_store p frontier σ pq).
  - unfold _add_to_frontier. by rewrite E.
Qed.

(** X10. Any number of calls in a row leaves the store, and so the caller's
    frontier, as it was before the first. *)
Theorem add_to_frontier_repeated (ps : list P) (frontier : nat) (σ : store) (pq : list P) :
  σ !! frontier = Some pq →
  foldl (λ s p, s ≫= _add_to_frontier p frontier) (Some σ) ps = Some σ.
Proof.
  intros Hpq. induction ps as [|p ps IH]; [done|].
  cbn [foldl mbind option_bind]. by rewrite (_add_to_frontier_store p frontier σ pq Hpq).
Qed.

Lemma add_to_frontier_repeated_witness :
  foldl (λ s p, s ≫= _add_to_frontier p 0%nat) (Some ({[ 0%nat := [frontier_low] ]} : store))
        [frontier_high; frontier_low; frontier_high]
  = Some {[ 0%nat := [frontier_low] ]}.
Proof.
  apply (add_to_frontier_repeated [frontier_high; frontier_low; frontier_high] 0%nat
           {[ 0%nat := [frontier_low] ]} [frontier_low]).
  reflexivity.
Defined.

(** ** The frontier: [std::priority_queue<P>] under [operator<] *)

Section push_top.
Context {T : Type} (comp : T → T → bool).
Local Open Scope nat_scope.

(** The front of the vector after [__push_heap]: the value arrives there only
    by passing every element on its way up. *)
Lemma push_heap_loop_head_keep fuel : ∀ c h v t,
  0 < h → c !! 0 = Some t → comp t v = false →
  head (push_heap_loop comp fuel c h 0 v) = Some t.
Proof.
  assert (∀ (c : list T) h v t, 0 < h → c !! 0 = Some t → head (<[h := v]> c) = Some t) as Hins.
  { intros c h v t Hh Ht. rewrite head_lookup, list_lookup_insert_ne by lia. done. }
  induction fuel as [|fuel IH]; intros c h v t Hh Ht Hc; cbn [push_heap_loop]; [by apply Hins|].
  destruct (c !! ((h - 1) / 2)) as [pv|] eqn:Epv; [|by apply Hins].
  destruct (bool_decide (0 < h) && comp pv v) eqn:E; [|by apply Hins].
  apply andb_prop in E as [_ Epvv].
  destruct (decide ((h - 1) / 2 = 0)) as [E0|E0].
  - rewrite E0 in Epv. congruence.
  - apply IH; [lia| |done]. rewrite list_lookup_insert_ne by lia. done.
Qed.

Lemma push_heap_loop_head_new fuel : ∀ c h v,
  h < length c → h ≤ fuel →
  (∀ i a, i ≠ h → c !! i = Some a → comp a v = true) →
  head (push_heap_loop comp fuel c h 0 v) = Some v.
Proof.
  assert (∀ (c : list T) v, 0 < length c → head (<[0 := v]> c) = Some v) as Hins.
  { intros c v Hl. rewrite head_lookup, list_lookup_insert_eq by done. done. }
  induction fuel as [|fuel IH]; intros c h v Hl Hf Hall; cbn [push_heap_loop].
  - assert (h = 0) as -> by lia. apply Hins. lia.
  - destruct (decide (h = 0)) as [->|Hh].
    + destruct (c !! ((0 - 1) / 2)); [|apply Hins; lia].
      cbn. apply Hins. lia.
    + assert (0 < h) as Hh' by lia. pose proof (parent_lt h Hh') as Hp. unfold parent in Hp.
      destruct (c !! ((h - 1) / 2)) as [pv|] eqn:Epv; [|apply lookup_ge_None in Epv; lia].
      rewrite bool_decide_eq_true_2 by done. cbn [andb].
      rewrite (Hall _ _ (Nat.lt_neq _ _ Hp) Epv).
      apply IH; [rewrite length_insert; lia|lia|].
      intros i a Hi Ha. apply list_lookup_insert_Some in Ha as [(-> & -> & _)|[Hne Ha]].
      * by apply (Hall _ _ (Nat.lt_neq _ _ Hp)).
      * by apply (Hall i).
Qed.
End push_top.

Lemma frontier_top_max (pq : list P) (t q : P) :
  pq_reachable operator_lt pq →
  Forall (λ p : P, is_nan (_improvement p) = false) pq →
  pq_top pq = Some t → q ∈ pq → operator_lt t q = false.
Proof.
  intros Hreach Hnan Ht Hq.
  apply (heap_top_max operator_lt operator_lt_asym pq t); auto using frontier_is_heap.
  eapply Forall_impl; [exact Hnan|]. intros p Hp. by apply operator_lt_ordered.
Qed.

Lemma lt_of_not_lt (t a v : P) :
  is_nan (_improvement a) = false →
  operator_lt t v = true → operator_lt t a = false → operator_lt a v = true.
Proof.
  intros Ha Htv Hta. destruct (operator_lt a v) eqn:E; [done|].
  rewrite (operator_lt_ordered a Ha t v Hta E) in Htv. done.
Qed.

(** X11. [push] on the frontier loses and duplicates nothing: the vector
    afterwards is a rearrangement of the old one and the new record, one
    longer, and still in heap order under [operator<] if it was. This holds
    for every content, NaN improvements included. *)
Theorem frontier_push_keeps_records (pq : list P) (p : P) :
  pq_push operator_lt pq p ≡ₚ p :: pq
  ∧ length (pq_push operator_lt pq p) = S (length pq)
  ∧ (is_heap operator_lt pq → is_heap operator_lt (pq_push operator_lt pq p)).
Proof.
  pose proof (pq_push_Permutation operator_lt pq p) as H.
  split; [done|]. split; [by rewrite (Permutation_length H)|].
  apply (pq_push_heap operator_lt operator_lt_asym operator_lt_trans operator_lt_mid).
Qed.

(** X12. [pop] on a frontier in heap order removes the record that [top]
    returns and nothing else, and leaves the rest in heap order. *)
Theorem frontier_pop_removes_top (pq : list P) (t : P) :
  is_heap operator_lt pq → pq_top pq = Some t →
  pq ≡ₚ t :: pq_pop operator_lt pq
  ∧ S (length (pq_pop operator_lt pq)) = length pq
  ∧ is_heap operator_lt (pq_pop operator_lt pq).
Proof.
  intros Hh Ht.
  destruct (pq_pop_spec operator_lt operator_lt_asym operator_lt_trans operator_lt_mid
              pq t Hh Ht) as [H1 H2].
  split; [done|]. split; [by rewrite (Permutation_length H2)|done].
Qed.

Lemma frontier_pop_removes_top_witness :
  let pq := pq_push operator_lt (pq_push operator_lt pq_empty frontier_low) frontier_high in
  pq ≡ₚ frontier_high :: pq_pop operator_lt pq
  ∧ S (length (pq_pop operator_lt pq)) = length pq
  ∧ is_heap operator_lt (pq_pop operator_lt pq).
Proof.
  apply (frontier_pop_removes_top
           (pq_push operator_lt (pq_push operator_lt pq_empty frontier_low) frontier_high)
           frontier_high).
  - apply frontier_is_heap. repeat constructor.
  - reflexivity.
Defined.

(** X13. Records leave a frontier without NaN improvements in order: the
    record on top after a [pop] is never greater, under [operator<], than
    the one that was popped. *)
Theorem frontier_pops_in_order (pq : list P) (t1 t2 : P) :
  pq_reachable operator_lt pq →
  Forall (λ p : P, is_nan (_improvement p) = false) pq →
  pq_top pq = Some t1 → pq_top (pq_pop operator_lt pq) = Some t2 →
  operator_lt t1 t2 = false.
Proof.
  intros Hreach Hnan Ht1 Ht2.
  apply (frontier_top_max pq t1 t2 Hreach Hnan Ht1).
  destruct (pq_pop_spec operator_lt operator_lt_asym operator_lt_trans operator_lt_mid
              pq t1 (frontier_is_heap pq Hreach) Ht1) as [_ Hperm].
  rewrite Hperm. apply list_elem_of_further.
  destruct (pq_pop operator_lt pq); [done|]. cbn in Ht2. injection Ht2 as ->.
  apply list_elem_of_here.
Qed.

Lemma frontier_pops_in_order_witness :
  operator_lt frontier_high frontier_low = false.
Proof.
  apply (frontier_pops_in_order
           (pq_push operator_lt (pq_push operator_lt pq_empty frontier_low) frontier_high)
           frontier_high frontier_low).
  - repeat constructor.
  - vm_compute. repeat constructor.
  - reflexivity.
  - reflexivity.
Defined.

Lemma push_greater_on_frontier_top (pq : list P) (p : P) :
  pq_reachable operator_lt pq →
  Forall (λ p : P, is_nan (_improvement p) = false) pq →
  (∀ t, pq_top pq = Some t → operator_lt t p = true) →
  pq_top (pq_push operator_lt pq p) = Some p.
Proof.
  intros Hreach Hnan Hbest. unfold pq_push, std_push_heap_at, pq_top.
  apply push_heap_loop_head_new; [rewrite length_app; cbn; lia|lia|].
  intros i a Hi Ha.
  assert (i < length pq)%nat as Hil.
  { apply lookup_lt_Some in Ha. rewrite length_app in Ha. cbn in Ha. lia. }
  rewrite lookup_app_l in Ha by done.
  assert (a ∈ pq) as Hin by (by eapply list_elem_of_lookup_2).
  destruct (pq_top pq) as [t|] eqn:Ht; [|by destruct pq].
  apply (lt_of_not_lt t); [|by apply Hbest|by apply (frontier_top_max pq)].
  rewrite Forall_forall in Hnan. by apply Hnan.
Qed.

(** X14. The top after a [push] on a frontier without NaN improvements: the
    new record if it is greater than the old top under [operator<] (or the
    frontier was empty), the old top otherwise, so a record of equal
    improvement never displaces the top. *)
Theorem frontier_push_top (pq : list P) (p : P) :
  pq_reachable operator_lt pq →
  Forall (λ p : P, is_nan (_improvement p) = false) pq →
  pq_top (pq_push operator_lt pq p)
  = Some match pq_top pq with
         | Some t => if operator_lt t p then p else t
         | None => p
         end.
Proof.
  intros Hreach Hnan.
  destruct (pq_top pq) as [t|] eqn:Ht.
  - destruct (operator_lt t p) eqn:Etp.
    + apply push_greater_on_frontier_top; [done|done|].
      intros t' Ht'. by assert (t' = t) as -> by congruence.
    + assert (0 < length pq)%nat as Hlen by (destruct pq; [done|cbn; lia]).
      assert (pq !! 0%nat = Some t) as Ht0 by (by rewrite <- head_lookup).
      unfold pq_push, std_push_heap_at, pq_top.
      apply (push_heap_loop_head_keep operator_lt); [done| |done].
      by rewrite lookup_app_l.
  - apply push_greater_on_frontier_top; [done|done|]. intros t' Ht'. congruence.
Qed.

Lemma frontier_push_top_witness :
  pq_top (pq_push operator_lt (pq_push operator_lt pq_empty frontier_low) frontier_high)
  = Some match pq_top (pq_push operator_lt pq_empty frontier_low) with
         | Some t => if operator_lt t frontier_high then frontier_high else t
         | None => frontier_high
         end.
Proof.
  apply (frontier_push_top (pq_push operator_lt pq_empty frontier_low) frontier_high).
  - repeat constructor.
  - vm_compute. repeat constructor.
Defined.

(** X15. Round trip: pushing a record that is greater than the top of a
    frontier without NaN improvements and popping at once gives that record
    back as the top and leaves the records the frontier had. *)
Theorem frontier_push_pop_roundtrip (pq : list P) (p : P) :
  pq_reachable operator_lt pq →
  Forall (λ p : P, is_nan (_improvement p) = false) pq →
  (∀ t, pq_top pq = Some t → operator_lt t p = true) →
  pq_top (pq_push operator_lt pq p) = Some p
  ∧ pq_pop operator_lt (pq_push operator_lt pq p) ≡ₚ pq.
Proof.
  intros Hreach Hnan Hbest.
  assert (pq_top (pq_push operator_lt pq p) = Some p) as Htop
    by (by apply push_greater_on_frontier_top).
  split; [done|].
  destruct (pq_pop_spec operator_lt operator_lt_asym operator_lt_trans operator_lt_mid
              (pq_push operator_lt pq p) p) as [_ Hperm];
    [apply frontier_is_heap; by constructor|done|].
  apply (Permutation_cons_inv (a := p)). rewrite <- Hperm.
  apply pq_push_Permutation.
Qed.

Lemma frontier_push_pop_roundtrip_witness :
  pq_top (pq_push operator_lt (pq_push operator_lt pq_empty frontier_low) frontier_high)
  = Some frontier_high
  ∧ pq_pop operator_lt
      (pq_push operator_lt (pq_push operator_lt pq_empty frontier_low) frontier_high)
    ≡ₚ pq_push operator_lt pq_empty frontier_low.
Proof.
  apply (frontier_push_pop_roundtrip (pq_push operator_lt pq_empty frontier_low)
           frontier_high).
  - repeat constructor.
  - vm_compute. repeat constructor.
  - intros t Ht. vm_compute in Ht. injection Ht as <-. reflexivity.
Defined.

(** ** The copy constructor of [SplitRecord] *)

(** X16. What a copy depends on: into the same storage, two records give
    the same copy exactly when they agree on [feature], [pos], [threshold]
    and [improvement]; the source's [impurity_left] and [impurity_right]
    have no influence on the copy. *)
Theorem SplitRecord_copy_depends_on_four_fields (raw r r' : SplitRecord) :
  SplitRecord_copy raw r = SplitRecord_copy raw r'
  ↔ feature r = feature r' ∧ pos r = pos r' ∧ threshold r = threshold r'
    ∧ improvement r = improvement r'.
Proof.
  rewrite !SplitRecord_copy_fields. split.
  - intros [= -> -> -> ->]. done.
  - intros (-> & -> & -> & ->). done.
Qed.
